(** * lerna-changelog: the markdown renderer (src/markdown-renderer.ts)

    A shallow embedding of [MarkdownRenderer] and the properties of its
    rendering pipeline.

    - JavaScript strings are sequences of UTF-16 code units: [jstr] is a
      list of code units, each an [N]; the program's string literals are
      all ASCII and are written [lit "..."].
    - The only assignment of the renderer is [issue.title = ...] in
      [renderContribution].  Issue objects therefore live in a store
      indexed by locations, commits refer to their issue by location (so
      that two buckets, two commits or two releases may share one issue
      object), and every rendering function is a state transformer over
      that store.
    - [progressBar] is an external collaborator whose calls return nothing
      the renderer uses; they are left out. *)

From Stdlib Require Import List NArith Bool Arith Lia String Ascii.
From Stdlib Require Import Permutation Sorted DecimalString.
From Stdlib Require DecimalPos.
Import ListNotations.

Local Open Scope list_scope.

(** ** Strings *)

Definition jstr := list N.

Definition lit (s : string) : jstr :=
  map N_of_ascii (list_ascii_of_string s).

Definition jstr_eqb (a b : jstr) : bool :=
  if list_eq_dec N.eq_dec a b then true else false.

(** [ToBoolean] on a string and on a number. *)
Definition truthy_string (s : jstr) : bool :=
  match s with [] => false | _ :: _ => true end.

Definition truthy_number (n : N) : bool := negb (n =? 0)%N.

(** The line feed, [\n]. *)
Definition LF : jstr := [10%N].

(** [Array.prototype.join] on an array of strings. *)
Fixpoint join (sep : jstr) (l : list jstr) : jstr :=
  match l with
  | [] => []
  | x :: l' =>
      match l' with
      | [] => x
      | _ :: _ => x ++ sep ++ join sep l'
      end
  end.

(** ** Numbers

    The renderer prints two numbers, an issue number and an array length,
    both non-negative integers.  A Number is a binary64 value; the model
    holds a non-negative integer Number as its value in [N]. *)

(** The decimal numeral of a natural number. *)
Definition decimal (n : N) : jstr :=
  lit (NilEmpty.string_of_uint (N.to_uint n)).

(** The gap between the Numbers around [n]: a Number has 53 significant
    bits. *)
Definition ulp (n : N) : N := (2 ^ (N.log2 n - 52))%N.

(** The Number for a natural number, the nearest one, ties to the even
    significand: what reading its numeral gives. *)
Definition to_Number (n : N) : N :=
  let u := ulp n in
  let m := (n / u)%N in
  let r := (n mod u)%N in
  if (2 * r <? u)%N then (m * u)%N
  else if (u <? 2 * r)%N then ((m + 1) * u)%N
  else if N.even m then (m * u)%N else ((m + 1) * u)%N.

(** The [s] for which [s * 10^j] reads as the Number [x], if there is one:
    the one nearest to [x], the even one of two equally near. *)
Definition nearest (x j : N) : option N :=
  let p := (10 ^ j)%N in
  let f := (x / p)%N in
  let below := ((0 <? f) && (to_Number (f * p) =? x))%N in
  let above := (to_Number ((f + 1) * p) =? x)%N in
  match below, above with
  | true, true =>
      match (x - f * p ?= (f + 1) * p - x)%N with
      | Lt => Some f
      | Gt => Some (f + 1)%N
      | Eq => if N.even f then Some f else Some (f + 1)%N
      end
  | true, false => Some f
  | false, true => Some (f + 1)%N
  | false, false => None
  end.

(** The fewest digits [s] and the zeros [j] after them such that
    [s * 10^j] reads as [x], looking for at most [j] zeros. *)
Fixpoint shortest (x : N) (j : nat) : N * nat :=
  match j with
  | O => (x, O)
  | S j' =>
      match nearest x (N.of_nat j) with
      | Some s => (s, j)
      | None => shortest x j'
      end
  end.

(** [Number::toString] on a non-negative integer: the fewest digits that
    read back as the same Number, followed by zeros up to 21 digits in
    all and by an exponent beyond. *)
Definition Number_toString (n : N) : jstr :=
  let x := to_Number n in
  if (1024 <=? N.log2 x)%N then lit "Infinity" else
  let '(s, j) := shortest x (List.length (decimal x)) in
  let ds := decimal s in
  let e := (List.length ds + j)%nat in
  if (e <=? 21)%nat then ds ++ repeat 48%N j
  else
    match ds with
    | [] => []
    | d :: [] => d :: lit "e+" ++ decimal (N.of_nat (e - 1))
    | d :: ds' => d :: lit "." ++ ds' ++ lit "e+" ++ decimal (N.of_nat (e - 1))
    end.

(** ** Regular expressions

    The fragment of ECMAScript patterns that [COMMIT_FIX_REGEX] is written
    in, with the backtracking order of the language: alternatives left to
    right, quantifiers greedy. *)

Inductive atom :=
| Chr (c : N)              (* a pattern character *)
| Digit                    (* \d *)
| OneOf (cs : list N).     (* [...] *)

Inductive regex :=
| Atom (a : atom)
| Seq (r1 r2 : regex)
| Alt (r1 r2 : regex)
| Opt (r : regex)          (* r? *)
| PlusA (a : atom)         (* a+ *)
| Group (n : nat) (r : regex).   (* the n-th capturing parenthesis *)

(** [Canonicalize] under the [i] flag without the [u] flag.  A code unit
    of 128 or more never canonicalizes to an ASCII code unit, and the
    pattern below only has ASCII characters, so the ASCII letters are the
    only ones whose folding can decide a comparison. *)
Definition Canonicalize (c : N) : N :=
  if ((97 <=? c) && (c <=? 122))%N then (c - 32)%N else c.

Definition is_digit (c : N) : bool := ((48 <=? c) && (c <=? 57))%N.

Definition atom_matches (ignoreCase : bool) (a : atom) (c : N) : bool :=
  match a with
  | Chr p =>
      if ignoreCase then (Canonicalize p =? Canonicalize c)%N else (p =? c)%N
  | Digit => is_digit c
  | OneOf cs =>
      if ignoreCase
      then existsb (fun p => (Canonicalize p =? Canonicalize c)%N) cs
      else existsb (fun p => (p =? c)%N) cs
  end.

(** Captures: the substring each group matched last, or nothing. *)
Definition captures := nat -> option jstr.

Definition no_captures : captures := fun _ => None.

Definition set_capture (n : nat) (v : jstr) (caps : captures) : captures :=
  fun k => if Nat.eqb k n then Some v else caps k.

(** The part of [s] consumed when [s'] is what is left of it. *)
Definition consumed (s s' : jstr) : jstr :=
  firstn (List.length s - List.length s') s.

Section Matcher.
Variable ignoreCase : bool.
Variable R : Type.

Definition cont := jstr -> captures -> option R.

(** [a*], tried longest first. *)
Fixpoint star_atom (a : atom) (s : jstr) (caps : captures) (k : cont)
  : option R :=
  match s with
  | c :: s' =>
      if atom_matches ignoreCase a c then
        match star_atom a s' caps k with
        | Some r => Some r
        | None => k s caps
        end
      else k s caps
  | [] => k s caps
  end.

Fixpoint matcher (r : regex) (s : jstr) (caps : captures) (k : cont)
  : option R :=
  match r with
  | Atom a =>
      match s with
      | c :: s' => if atom_matches ignoreCase a c then k s' caps else None
      | [] => None
      end
  | Seq r1 r2 =>
      matcher r1 s caps (fun s1 caps1 => matcher r2 s1 caps1 k)
  | Alt r1 r2 =>
      match matcher r1 s caps k with
      | Some x => Some x
      | None => matcher r2 s caps k
      end
  | Opt r1 =>
      match matcher r1 s caps k with
      | Some x => Some x
      | None => k s caps
      end
  | PlusA a =>
      match s with
      | c :: s' =>
          if atom_matches ignoreCase a c then star_atom a s' caps k
          else None
      | [] => None
      end
  | Group n r1 =>
      matcher r1 s caps
        (fun s1 caps1 => k s1 (set_capture n (consumed s s1) caps1))
  end.
End Matcher.

(** The result of [RegExp.prototype.exec]: where the match starts, the
    text before it, the matched text, the text after it, the captures. *)
Record MatchResult := {
  m_before : jstr;
  m_matched : jstr;
  m_after : jstr;
  m_captures : captures
}.

Definition match_here (ignoreCase : bool) (r : regex) (before s : jstr)
  : option MatchResult :=
  matcher ignoreCase MatchResult r s no_captures
    (fun s' caps =>
       Some {| m_before := before; m_matched := consumed s s';
               m_after := s'; m_captures := caps |}).

(** A pattern without the [g] and [y] flags is tried at every index from
    0 on, and the first index where it matches wins. *)
Fixpoint exec_from (ignoreCase : bool) (r : regex) (rev_before s : jstr)
  : option MatchResult :=
  match match_here ignoreCase r (rev rev_before) s with
  | Some m => Some m
  | None =>
      match s with
      | [] => None
      | c :: s' => exec_from ignoreCase r (c :: rev_before) s'
      end
  end.

Definition RegExp_exec (ignoreCase : bool) (r : regex) (s : jstr)
  : option MatchResult :=
  exec_from ignoreCase r [] s.

(** [GetSubstitution] for a pattern with [m] capturing groups and no named
    group: [$$], [$&], [$`], [$'], [$n] and [$nn]; any other [$] stands for
    itself. *)
Definition digit_value (c : N) : nat := N.to_nat (c - 48).

Definition capture_text (caps : captures) (n : nat) : jstr :=
  match caps n with Some v => v | None => [] end.

Fixpoint GetSubstitution (m : nat) (mr : MatchResult) (template : jstr)
  : jstr :=
  match template with
  | [] => []
  | c :: rest =>
      if negb (c =? 36)%N then c :: GetSubstitution m mr rest else
      match rest with
      | [] => [c]
      | d :: rest1 =>
          if (d =? 36)%N then 36%N :: GetSubstitution m mr rest1
          else if (d =? 38)%N then m_matched mr ++ GetSubstitution m mr rest1
          else if (d =? 96)%N then m_before mr ++ GetSubstitution m mr rest1
          else if (d =? 39)%N then m_after mr ++ GetSubstitution m mr rest1
          else if is_digit d then
            let one :=
              let i := digit_value d in
              if (1 <=? i) && (i <=? m)
              then capture_text (m_captures mr) i ++ GetSubstitution m mr rest1
              else c :: d :: GetSubstitution m mr rest1 in
            match rest1 with
            | e :: rest2 =>
                if is_digit e then
                  let i := 10 * digit_value d + digit_value e in
                  if m <? i then one
                  else if 1 <=? i
                  then capture_text (m_captures mr) i
                         ++ GetSubstitution m mr rest2
                  else c :: d :: e :: GetSubstitution m mr rest2
                else one
            | [] => one
            end
          else c :: GetSubstitution m mr rest
      end
  end.

(** [String.prototype.match] with a pattern without the [g] flag. *)
Definition String_match := RegExp_exec.

(** [String.prototype.replace] with such a pattern and a string as the
    replacement: the first match only. *)
Definition String_replace (ignoreCase : bool) (r : regex) (groups : nat)
  (template s : jstr) : jstr :=
  match RegExp_exec ignoreCase r s with
  | Some mr => m_before mr ++ GetSubstitution groups mr template ++ m_after mr
  | None => s
  end.

(** ** The renderer's constants *)

Definition UNRELEASED_TAG : jstr := lit "___unreleased___".

Definition chr (s : string) : N :=
  match s with
  | String a _ => N_of_ascii a
  | EmptyString => 0%N
  end.

Fixpoint word (s : list N) : regex :=
  match s with
  | [] => Atom (OneOf [])
  | [c] => Atom (Chr c)
  | c :: s' => Seq (Atom (Chr c)) (word s')
  end.

(** [/(fix|close|resolve)(e?s|e?d)? [T#](\d+)/i] *)
Definition COMMIT_FIX_REGEX : regex :=
  Seq (Group 1 (Alt (word (lit "fix"))
                    (Alt (word (lit "close")) (word (lit "resolve")))))
   (Seq (Opt (Group 2 (Alt (Seq (Opt (Atom (Chr (chr "e")))) (Atom (Chr (chr "s"))))
                           (Seq (Opt (Atom (Chr (chr "e")))) (Atom (Chr (chr "d")))))))
    (Seq (Atom (Chr (chr " ")))
     (Seq (Atom (OneOf [chr "T"; chr "#"]))
          (Group 3 (PlusA Digit))))).

Definition COMMIT_FIX_GROUPS : nat := 3.

Definition COMMIT_FIX_match (s : jstr) : option MatchResult :=
  String_match true COMMIT_FIX_REGEX s.

Definition COMMIT_FIX_replace (template s : jstr) : jstr :=
  String_replace true COMMIT_FIX_REGEX COMMIT_FIX_GROUPS template s.

(** ** Data model *)

(** The records carry the fields the renderer reads, with the types it
    uses them at; a field the spec calls optional, and the renderer tests
    before it uses it, is an [option]. *)

(** Modelled from the spec: the type of [pull_request] in
    [GitHubIssueResponse] (github-api.ts, not among the sources), read as
    [issue.pull_request.html_url]. *)
Record PullRequest := { pr_html_url : jstr }.

(** Modelled from the spec: the type of [user] in [GitHubIssueResponse]
    (github-api.ts, not among the sources), read as [issue.user.login] and
    [issue.user.html_url]. *)
Record IssueUser := { user_login : jstr; user_html_url : jstr }.

(** Modelled from the spec: [GitHubIssueResponse] (github-api.ts, not
    among the sources), the linked issue or pull request of a commit:
    number, title, pull-request URL, author. *)
Record GitHubIssueResponse := {
  number : N;
  title : jstr;
  pull_request : option PullRequest;
  user : IssueUser
}.

(** Modelled from the spec: [GitHubUserResponse] (github-api.ts, not
    among the sources), a contributor: login, optional display name,
    profile URL. *)
Record GitHubUserResponse := {
  login : jstr;
  name : option jstr;
  html_url : jstr
}.

(** A location of the store of issue objects. *)
Definition loc := nat.

(** Modelled from the spec: [CommitInfo] (interfaces.ts, not among the
    sources), a commit: category labels, optional package names, optional
    linked issue, held by reference. *)
Record CommitInfo := {
  githubIssue : option loc;
  categories : option (list jstr);
  packages : option (list jstr)
}.

(** Modelled from the spec: [Release] (interfaces.ts, not among the
    sources), a release: name, date, commits in order, optional
    contributors. *)
Record Release := {
  release_name : jstr;
  date : jstr;
  commits : list CommitInfo;
  contributors : option (list GitHubUserResponse)
}.

Record CategoryInfo := {
  category_name : jstr;
  category_commits : list CommitInfo
}.

Record Options := {
  options_categories : list jstr;
  baseIssueUrl : jstr
}.

(** ** The store and its monad *)

Definition Store := loc -> GitHubIssueResponse.

Definition with_title (i : GitHubIssueResponse) (t : jstr)
  : GitHubIssueResponse :=
  {| number := number i; title := t;
     pull_request := pull_request i; user := user i |}.

Definition M (A : Type) : Type := Store -> A * Store.

Definition ret {A} (a : A) : M A := fun s => (a, s).

Definition bind {A B} (m : M A) (f : A -> M B) : M B :=
  fun s => let (a, s') := m s in f a s'.

Notation "x <- m ;; k" := (bind m (fun x => k))
  (at level 61, m at next level, right associativity).
Notation "m ;;; k" := (bind m (fun _ => k))
  (at level 61, right associativity).

Definition read_issue (l : loc) : M GitHubIssueResponse :=
  fun s => (s l, s).

(** [issue.title = t] on the issue object at [l]. *)
Definition write_title (l : loc) (t : jstr) : M unit :=
  fun s => (tt, fun l' => if Nat.eqb l' l then with_title (s l') t else s l').

(** [Array.prototype.map] with a callback that may write to the store:
    the elements are visited from left to right. *)
Fixpoint mapM {A B} (f : A -> M B) (l : list A) : M (list B) :=
  match l with
  | [] => ret []
  | x :: l' => y <- f x ;; ys <- mapM f l' ;; ret (y :: ys)
  end.

(** [.filter(Boolean)] on an array of [string | undefined]. *)
Fixpoint filter_Boolean (l : list (option jstr)) : list jstr :=
  match l with
  | [] => []
  | Some s :: l' =>
      if truthy_string s then s :: filter_Boolean l' else filter_Boolean l'
  | None :: l' => filter_Boolean l'
  end.

(** ** Objects used as maps

    The own string-keyed properties of an object, in creation order.
    [Object.keys] lists the keys that are array indices first, in
    ascending numeric order, then the others in creation order. *)

Definition JSObject (V : Type) := list (jstr * V).

Fixpoint obj_get {V} (o : JSObject V) (k : jstr) : option V :=
  match o with
  | [] => None
  | (k', v) :: o' => if jstr_eqb k' k then Some v else obj_get o' k
  end.

Fixpoint obj_set {V} (o : JSObject V) (k : jstr) (v : V) : JSObject V :=
  match o with
  | [] => [(k, v)]
  | (k', v') :: o' =>
      if jstr_eqb k' k then (k', v) :: o' else (k', v') :: obj_set o' k v
  end.

Fixpoint parse_digits (acc : N) (s : jstr) : option N :=
  match s with
  | [] => Some acc
  | c :: s' =>
      if is_digit c then parse_digits (10 * acc + (c - 48))%N s' else None
  end.

(** The array index a property key denotes, if it is one: the canonical
    numeral of an integer below 2^32 - 1. *)
Definition array_index (k : jstr) : option N :=
  match k with
  | [] => None
  | _ :: _ =>
      match parse_digits 0 k with
      | Some n =>
          if jstr_eqb (Number_toString n) k && (n <? 4294967295)%N
          then Some n else None
      | None => None
      end
  end.

Fixpoint insert_by_index (x : N * jstr) (l : list (N * jstr))
  : list (N * jstr) :=
  match l with
  | [] => [x]
  | y :: l' =>
      if (fst x <=? fst y)%N then x :: l else y :: insert_by_index x l'
  end.

Fixpoint index_keys {V} (o : JSObject V) : list (N * jstr) :=
  match o with
  | [] => []
  | (k, _) :: o' =>
      match array_index k with
      | Some n => insert_by_index (n, k) (index_keys o')
      | None => index_keys o'
      end
  end.

Fixpoint string_keys {V} (o : JSObject V) : list jstr :=
  match o with
  | [] => []
  | (k, _) :: o' =>
      match array_index k with
      | Some _ => string_keys o'
      | None => k :: string_keys o'
      end
  end.

Definition Object_keys {V} (o : JSObject V) : list jstr :=
  map snd (index_keys o) ++ string_keys o.

(** ** Sorting strings

    [Array.prototype.sort] without a comparator orders strings by their
    code units.  The order is total and antisymmetric on strings, so the
    sorted array does not depend on the algorithm; insertion is used. *)

Fixpoint jstr_leb (a b : jstr) : bool :=
  match a, b with
  | [], _ => true
  | _ :: _, [] => false
  | x :: a', y :: b' =>
      if (x <? y)%N then true
      else if (y <? x)%N then false
      else jstr_leb a' b'
  end.

Fixpoint sort_insert (x : jstr) (l : list jstr) : list jstr :=
  match l with
  | [] => [x]
  | y :: l' => if jstr_leb x y then x :: l else y :: sort_insert x l'
  end.

Fixpoint Array_sort (l : list jstr) : list jstr :=
  match l with
  | [] => []
  | x :: l' => sort_insert x (Array_sort l')
  end.

(** ** MarkdownRenderer *)

Section MarkdownRenderer.
Variable options : Options.

(** The second argument of [issue.title.replace]. *)
Definition closes_template : jstr :=
  lit "Closes [#$3](" ++ baseIssueUrl options ++ lit "$3)".

Definition has_category (name : jstr) (commit : CommitInfo) : bool :=
  match categories commit with
  | Some cs => existsb (jstr_eqb name) cs
  | None => false
  end.

Definition groupByCategory (allCommits : list CommitInfo)
  : list CategoryInfo :=
  map (fun name =>
         {| category_name := name;
            category_commits := filter (has_category name) allCommits |})
      (options_categories options).

Definition renderContributor (contributor : GitHubUserResponse) : jstr :=
  let userNameAndLink :=
    lit "[" ++ login contributor ++ lit "](" ++ html_url contributor
      ++ lit ")" in
  match name contributor with
  | Some n =>
      if truthy_string n then n ++ lit " (" ++ userNameAndLink ++ lit ")"
      else userNameAndLink
  | None => userNameAndLink
  end.

Definition renderContributorList (contributors : list GitHubUserResponse)
  : jstr :=
  let renderedContributors :=
    Array_sort (map (fun c => lit "- " ++ renderContributor c) contributors) in
  lit "#### Committers: "
    ++ Number_toString (N.of_nat (List.length contributors))
    ++ LF ++ join LF renderedContributors.

Definition renderContribution (commit : CommitInfo) : M (option jstr) :=
  match githubIssue commit with
  | Some l =>
      issue <- read_issue l ;;
      let markdown :=
        match pull_request issue with
        | Some pr =>
            if truthy_number (number issue) && truthy_string (pr_html_url pr)
            then lit "[#" ++ Number_toString (number issue) ++ lit "]("
                   ++ pr_html_url pr ++ lit ") "
            else []
        | None => []
        end in
      (if truthy_string (title issue)
       then match COMMIT_FIX_match (title issue) with
            | Some _ =>
                write_title l
                  (COMMIT_FIX_replace closes_template (title issue))
            | None => ret tt
            end
       else ret tt) ;;;
      issue' <- read_issue l ;;
      ret (Some (markdown ++ title issue' ++ lit ". ([@"
                   ++ user_login (user issue') ++ lit "]("
                   ++ user_html_url (user issue') ++ lit "))"))
  | None => ret None
  end.

Definition renderContributionList (commits : list CommitInfo)
  (prefix : jstr) : M jstr :=
  rendered <- mapM renderContribution commits ;;
  ret (join LF
         (map (fun r => prefix ++ lit "* " ++ r) (filter_Boolean rendered))).

Definition renderPackageNames (packageNames : list jstr) : jstr :=
  match packageNames with
  | [] => lit "Other"
  | _ :: _ =>
      join (lit ", ") (map (fun pkg => lit "`" ++ pkg ++ lit "`") packageNames)
  end.

Definition changedPackages (commit : CommitInfo) : list jstr :=
  match packages commit with Some ps => ps | None => [] end.

(** One iteration of the loop of [renderContributionsByPackage] on the
    object [commitsByPackage]: the property named by the commit's label is
    set to what it holds, or to a new array, and the commit is pushed onto
    it.  Every key is a rendered package label, which is [Other] or starts
    with a backquote, so no key names a property that a plain object
    inherits. *)
Definition add_commit (o : JSObject (list CommitInfo)) (commit : CommitInfo)
  : JSObject (list CommitInfo) :=
  let packageName := renderPackageNames (changedPackages commit) in
  let o' :=
    obj_set o packageName
      (match obj_get o packageName with Some cs => cs | None => [] end) in
  obj_set o' packageName
    (match obj_get o' packageName with Some cs => cs | None => [] end
       ++ [commit]).

(** The object [commitsByPackage] when the loop ends. *)
Definition commitsByPackage (commits : list CommitInfo)
  : JSObject (list CommitInfo) :=
  fold_left add_commit commits [].

Definition renderContributionsByPackage (commits : list CommitInfo)
  : M jstr :=
  let o := commitsByPackage commits in
  let packageNames := Object_keys o in
  rendered <-
    mapM (fun packageName =>
            let commits :=
              match obj_get o packageName with Some cs => cs | None => [] end in
            list <- renderContributionList commits (lit "  ") ;;
            ret (lit "* " ++ packageName ++ LF ++ list))
         packageNames ;;
  ret (join LF rendered).

Definition hasPackages (commits : list CommitInfo) : bool :=
  existsb (fun commit =>
             match packages commit with
             | Some ps => Nat.ltb 0 (List.length ps)
             | None => false
             end) commits.

(** The loop of [renderRelease] over [categoriesWithCommits], from the
    value [markdown] has when an iteration starts. *)
Fixpoint renderCategories (categoriesWithCommits : list CategoryInfo)
  (markdown : jstr) : M jstr :=
  match categoriesWithCommits with
  | [] => ret markdown
  | category :: rest =>
      let markdown :=
        markdown ++ (LF ++ LF) ++ lit "#### " ++ category_name category
          ++ LF in
      body <- (if hasPackages (category_commits category)
               then renderContributionsByPackage (category_commits category)
               else renderContributionList (category_commits category) []) ;;
      renderCategories rest (markdown ++ body)
  end.

Definition renderRelease (release : Release) : M jstr :=
  let categories := groupByCategory (commits release) in
  let categoriesWithCommits :=
    filter (fun category =>
              Nat.ltb 0 (List.length (category_commits category)))
           categories in
  if Nat.eqb (List.length categoriesWithCommits) 0 then ret [] else
  let releaseTitle :=
    if jstr_eqb (release_name release) UNRELEASED_TAG
    then lit "Unreleased" else release_name release in
  let markdown :=
    lit "## " ++ releaseTitle ++ lit " (" ++ date release ++ lit ")" in
  markdown <- renderCategories categoriesWithCommits markdown ;;
  ret (match contributors release with
       | Some cs => markdown ++ (LF ++ LF) ++ renderContributorList cs
       | None => markdown
       end).

Definition renderMarkdown (releases : list Release) : M jstr :=
  rendered <- mapM renderRelease releases ;;
  ret (LF ++ join (LF ++ LF ++ LF) (filter truthy_string rendered)).
End MarkdownRenderer.

(** ** Sample data for the worked cases *)

Definition release_example (cs : list CommitInfo) : Release :=
  {| release_name := lit "v1.0.0"; date := lit "2020-01-01";
     commits := cs; contributors := None |}.

Definition options_example : Options :=
  {| options_categories := [lit "Bug"; lit "Feature"];
     baseIssueUrl := lit "https://example.com/issues/" |}.

Definition commit_docs : CommitInfo :=
  {| githubIssue := Some 0; categories := Some [lit "Docs"];
     packages := None |}.

Definition user_example : IssueUser :=
  {| user_login := lit "bob"; user_html_url := lit "https://github.com/bob" |}.

Definition issue_titled (t : jstr) : GitHubIssueResponse :=
  {| number := 7; title := t;
     pull_request := Some {| pr_html_url := lit "https://github.com/o/r/pull/7" |};
     user := user_example |}.

Definition store_of (i : GitHubIssueResponse) : Store := fun _ => i.

Definition commit_bug : CommitInfo :=
  {| githubIssue := Some 0; categories := Some [lit "Bug"];
     packages := None |}.

Definition options_dollar : Options :=
  {| options_categories := [lit "Bug"];
     baseIssueUrl := lit "https://example.com/$&/" |}.

Definition commit_feature_bug : CommitInfo :=
  {| githubIssue := Some 0; categories := Some [lit "Feature"; lit "Bug"];
     packages := None |}.

Definition commit_core : CommitInfo :=
  {| githubIssue := Some 0; categories := Some [lit "Bug"];
     packages := Some [lit "core"] |}.

Definition commit_core_utils : CommitInfo :=
  {| githubIssue := Some 1; categories := Some [lit "Bug"];
     packages := Some [lit "core"; lit "utils"] |}.

Definition contributor_example_1 : GitHubUserResponse :=
  {| login := lit "al"; name := Some (lit "bob"); html_url := lit "u1" |}.

Definition contributor_example_2 : GitHubUserResponse :=
  {| login := lit "zed"; name := None; html_url := lit "u2" |}.

Definition options_escaped : Options :=
  {| options_categories := [lit "Bug"];
     baseIssueUrl := lit "https://example.com/$$x/" |}.

Definition options_no_category : Options :=
  {| options_categories := [];
     baseIssueUrl := lit "https://example.com/issues/" |}.

(** * Vocabulary of the properties *)

(** The two ends of a commit line: the link to the pull request, present
    when the number, the pull request and its URL are all set, and the
    link to the author. *)
Definition pr_prefix (issue : GitHubIssueResponse) : jstr :=
  match pull_request issue with
  | Some pr =>
      if truthy_number (number issue) && truthy_string (pr_html_url pr)
      then lit "[#" ++ Number_toString (number issue) ++ lit "]("
             ++ pr_html_url pr ++ lit ") "
      else []
  | None => []
  end.

Definition author_suffix (issue : GitHubIssueResponse) : jstr :=
  lit ". ([@" ++ user_login (user issue) ++ lit "]("
    ++ user_html_url (user issue) ++ lit "))".

Section Vocabulary.
Variable options : Options.

(** What a rendering does to the title it finds. *)
Definition rewriteTitle (t : jstr) : jstr :=
  if truthy_string t then
    match COMMIT_FIX_match t with
    | Some _ => COMMIT_FIX_replace (closes_template options) t
    | None => t
    end
  else t.

(** The store after the issues at the locations [L], repetitions counted,
    have been rendered. *)
Definition touched (L : list loc) (s : Store) : Store :=
  fun l =>
    with_title (s l)
      (Nat.iter (count_occ Nat.eq_dec L l) rewriteTitle (title (s l))).

(** Running [m] rewrites the title of the issue at [l] once for every
    occurrence of [l] in [L], and writes nothing else. *)
Definition Touches {A} (m : M A) (L : list loc) : Prop :=
  forall s l, snd (m s) l = touched L s l.

(** Two stores that a rendering cannot tell apart: the same fields but
    for the titles, and titles with the same rewriting. *)
Definition sim (s s' : Store) : Prop :=
  forall l,
    number (s l) = number (s' l) /\
    pull_request (s l) = pull_request (s' l) /\
    user (s l) = user (s' l) /\
    rewriteTitle (title (s l)) = rewriteTitle (title (s' l)).

(** The text [m] returns depends on the store only up to [sim]. *)
Definition Respects {A} (m : M A) : Prop :=
  forall s s', sim s s' ->
    fst (m s) = fst (m s') /\ sim (snd (m s)) (snd (m s')).

End Vocabulary.

(** The issues a function renders, in the order it renders them. *)
Definition contribution_locs (commit : CommitInfo) : list loc :=
  match githubIssue commit with Some l => [l] | None => [] end.

Definition list_locs (commits : list CommitInfo) : list loc :=
  flat_map contribution_locs commits.

Definition group_commits (o : JSObject (list CommitInfo)) (k : jstr)
  : list CommitInfo :=
  match obj_get o k with Some cs => cs | None => [] end.

Definition package_locs (commits : list CommitInfo) : list loc :=
  let o := commitsByPackage commits in
  flat_map (fun k => list_locs (group_commits o k)) (Object_keys o).

Definition category_locs (category : CategoryInfo) : list loc :=
  if hasPackages (category_commits category)
  then package_locs (category_commits category)
  else list_locs (category_commits category).

Section ReleaseVocabulary.
Variable options : Options.

Definition categoriesWithCommits (release : Release) : list CategoryInfo :=
  filter (fun category =>
            Nat.ltb 0 (List.length (category_commits category)))
         (groupByCategory options (commits release)).

Definition release_locs (release : Release) : list loc :=
  flat_map category_locs (categoriesWithCommits release).

Definition markdown_locs (releases : list Release) : list loc :=
  flat_map release_locs releases.

End ReleaseVocabulary.

(** The property names of an object, in creation order. *)
Definition keys {V} (o : JSObject V) : list jstr := map fst o.

(** The label under which a commit is filed. *)
Definition package_label (commit : CommitInfo) : jstr :=
  renderPackageNames (changedPackages commit).

(** The distinct elements of a list, each at its first occurrence. *)
Fixpoint first_seen (l : list jstr) : list jstr :=
  match l with
  | [] => []
  | x :: l' => x :: filter (fun y => negb (jstr_eqb x y)) (first_seen l')
  end.

(** The commit carries the category label [name]. *)
Definition carries (commit : CommitInfo) (name : jstr) : Prop :=
  exists cs, categories commit = Some cs /\ In name cs.

(** The release with other commits, with other contributors. *)
Definition with_commits (release : Release) (cs : list CommitInfo) : Release :=
  {| release_name := release_name release; date := date release;
     commits := cs; contributors := contributors release |}.

Definition in_some_category (options : Options) (commit : CommitInfo) : bool :=
  existsb (fun name => has_category name commit) (options_categories options).

Definition with_contributors (release : Release)
  (cs : option (list GitHubUserResponse)) : Release :=
  {| release_name := release_name release; date := date release;
     commits := commits release; contributors := cs |}.

(** The lexicographic order on strings, by code units. *)
Inductive jstr_le : jstr -> jstr -> Prop :=
| jstr_le_nil b : jstr_le [] b
| jstr_le_lt x y a b : (x < y)%N -> jstr_le (x :: a) (y :: b)
| jstr_le_eq x a b : jstr_le a b -> jstr_le (x :: a) (x :: b).

(** [Sem ic r w]: the word [w] is in the language of [r]. *)
Inductive Sem (ic : bool) : regex -> jstr -> Prop :=
| Sem_Atom a c : atom_matches ic a c = true -> Sem ic (Atom a) [c]
| Sem_Seq r1 r2 w1 w2 :
    Sem ic r1 w1 -> Sem ic r2 w2 -> Sem ic (Seq r1 r2) (w1 ++ w2)
| Sem_AltL r1 r2 w : Sem ic r1 w -> Sem ic (Alt r1 r2) w
| Sem_AltR r1 r2 w : Sem ic r2 w -> Sem ic (Alt r1 r2) w
| Sem_OptSome r w : Sem ic r w -> Sem ic (Opt r) w
| Sem_OptNone r : Sem ic (Opt r) []
| Sem_Plus a w :
    w <> [] -> Forall (fun c => atom_matches ic a c = true) w ->
    Sem ic (PlusA a) w
| Sem_Group n r w : Sem ic r w -> Sem ic (Group n r) w.

(** What is left of [s] after its longest prefix of characters that [a]
    matches. *)
Fixpoint drop_run (ic : bool) (a : atom) (s : jstr) : jstr :=
  match s with
  | c :: s' => if atom_matches ic a c then drop_run ic a s' else s
  | [] => []
  end.

(** The ASCII letters. *)
Definition is_letter (c : N) : bool :=
  (((65 <=? c) && (c <=? 90)) || ((97 <=? c) && (c <=? 122)))%N.

(** [w] matches the fix pattern. *)
Definition Matches (w : jstr) : Prop := Sem true COMMIT_FIX_REGEX w.

(** A reference to an issue, as the fix pattern reads it: a verb, an
    ending, a space, a marker and digits, the letters in either case. *)
Definition folds_to (w : jstr) (p : string) : Prop :=
  map Canonicalize w = lit p.

Definition fix_verb (w : jstr) : Prop :=
  folds_to w "FIX" \/ folds_to w "CLOSE" \/ folds_to w "RESOLVE".

Definition fix_ending (w : jstr) : Prop :=
  w = [] \/ folds_to w "S" \/ folds_to w "ES" \/ folds_to w "D"
  \/ folds_to w "ED".

Definition fix_marker (c : N) : Prop :=
  c = chr "#" \/ c = chr "T" \/ c = chr "t".

Definition digits (n : jstr) : Prop :=
  n <> [] /\ Forall (fun c => is_digit c = true) n.

Definition fix_reference (w n : jstr) : Prop :=
  exists verb ending marker,
    w = verb ++ ending ++ chr " " :: marker :: n
    /\ fix_verb verb /\ fix_ending ending /\ fix_marker marker /\ digits n.

(** The sections of a release for a list of category names: for each
    name in turn a blank line, the heading, and the contributions of the
    commits that have the name among their categories, rendered from the
    store that the section before has left. *)
Inductive Sections (options : Options) (allCommits : list CommitInfo)
  : list jstr -> Store -> jstr -> Store -> Prop :=
| Sections_nil (s : Store) : Sections options allCommits [] s [] s
| Sections_cons (name : jstr) (names : list jstr) (s s1 s2 : Store)
    (body text : jstr) :
    (if hasPackages (filter (has_category name) allCommits)
     then renderContributionsByPackage options
            (filter (has_category name) allCommits) s
     else renderContributionList options
            (filter (has_category name) allCommits) [] s) = (body, s1) ->
    Sections options allCommits names s1 text s2 ->
    Sections options allCommits (name :: names) s
      (LF ++ LF ++ lit "#### " ++ name ++ LF ++ body ++ text) s2.

(** Whether a commit carries a GitHub issue, the test on which
    [renderContribution] returns a line at all. *)
Definition has_issue (commit : CommitInfo) : bool :=
  match githubIssue commit with Some _ => true | None => false end.

(** A text with every dollar sign doubled: the pattern [$$] of a
    replacement template stands for one dollar sign. *)
Definition escape_dollars (u : jstr) : jstr :=
  flat_map (fun c => if (c =? chr "$")%N then [chr "$"; chr "$"] else [c]) u.

(** * Properties *)

(** ** Numbers *)

Lemma ulp_safe (n : N) : (n < 2 ^ 53)%N -> ulp n = 1%N.
Proof.
  intros H. unfold ulp.
  assert (N.log2 n - 52 = 0)%N as ->; [|reflexivity].
  destruct (N.eq_dec n 0) as [->|Hn]; [reflexivity|].
  assert (N.log2 n < 53)%N by (apply N.log2_lt_pow2; lia). lia.
Qed.

Lemma to_Number_safe (n : N) : (n < 2 ^ 53)%N -> to_Number n = n.
Proof.
  intros H. unfold to_Number. rewrite (ulp_safe n H).
  rewrite N.mod_1_r, N.div_1_r. cbn. apply N.mul_1_r.
Qed.

Lemma to_Number_large (v : N) :
  (2 ^ 53 <= v)%N -> (2 ^ 53 <= to_Number v)%N.
Proof.
  intros H.
  assert (Hv : (0 < v)%N).
  { apply N.lt_le_trans with (2 ^ 53)%N; [reflexivity|exact H]. }
  assert (Hl : (53 <= N.log2 v)%N) by (now apply N.log2_le_pow2).
  assert (Hu : (2 <= ulp v)%N).
  { unfold ulp. change 2%N with (2 ^ 1)%N at 1.
    apply N.pow_le_mono_r; lia. }
  assert (Hm : (2 ^ 52 <= v / ulp v)%N).
  { apply N.div_le_lower_bound; [lia|].
    unfold ulp. rewrite N.mul_comm, <- N.pow_add_r.
    replace (52 + (N.log2 v - 52))%N with (N.log2 v) by lia.
    now apply N.log2_spec. }
  assert (Hmu : (2 ^ 53 <= v / ulp v * ulp v)%N).
  { change (2 ^ 53)%N with (2 ^ 52 * 2)%N. now apply N.mul_le_mono. }
  unfold to_Number.
  destruct (2 * (v mod ulp v) <? ulp v)%N; [exact Hmu|].
  assert (2 ^ 53 <= (v / ulp v + 1) * ulp v)%N by lia.
  destruct (ulp v <? 2 * (v mod ulp v))%N; [assumption|].
  destruct (N.even (v / ulp v)); assumption.
Qed.

Lemma reads_safe (x v : N) :
  (x < 2 ^ 53)%N -> to_Number v = x -> v = x.
Proof.
  intros Hx Hv. destruct (N.lt_ge_cases v (2 ^ 53)) as [H|H].
  - now rewrite to_Number_safe in Hv.
  - apply to_Number_large in H. rewrite Hv in H.
    now apply N.lt_nge in Hx.
Qed.

Lemma nearest_safe (x j s : N) :
  (x < 2 ^ 53)%N -> nearest x j = Some s ->
  (s * 10 ^ j)%N = x /\ (0 < s)%N.
Proof.
  intros Hx. unfold nearest.
  destruct (0 <? x / 10 ^ j)%N eqn:Ef; cbn [andb];
    [destruct (to_Number (x / 10 ^ j * 10 ^ j) =? x)%N eqn:Eb|];
    destruct (to_Number ((x / 10 ^ j + 1) * 10 ^ j) =? x)%N eqn:Ea;
    try discriminate;
    try apply N.eqb_eq in Eb; try apply N.eqb_eq in Ea;
    try apply N.ltb_lt in Ef;
    try apply (reads_safe x _ Hx) in Eb;
    try apply (reads_safe x _ Hx) in Ea.
  - lia.
  - intros [= <-]. split; [exact Eb|exact Ef].
  - intros [= <-]. split; [exact Ea|lia].
  - intros [= <-]. split; [exact Ea|]. now apply N.add_pos_r.
Qed.

Lemma shortest_safe (x : N) (k : nat) :
  (x < 2 ^ 53)%N ->
  (fst (shortest x k) * 10 ^ N.of_nat (snd (shortest x k)))%N = x
  /\ ((0 < fst (shortest x k))%N \/ snd (shortest x k) = O).
Proof.
  intros Hx. induction k as [|k IH].
  - cbn [shortest fst snd]. split; [|now right].
    change (N.of_nat 0) with 0%N. rewrite N.pow_0_r. apply N.mul_1_r.
  - cbn [shortest].
    destruct (nearest x (N.of_nat (S k))) as [s|] eqn:E; [|exact IH].
    cbn [fst snd]. destruct (nearest_safe x _ s Hx E). split; [assumption|].
    now left.
Qed.

Lemma lit_revapp (d d' : Decimal.uint) :
  lit (NilEmpty.string_of_uint (Decimal.revapp d d'))
  = List.rev (lit (NilEmpty.string_of_uint d))
      ++ lit (NilEmpty.string_of_uint d').
Proof.
  revert d'. induction d; intros d'; [reflexivity|..];
    cbn [Decimal.revapp]; rewrite IHd; cbn; now rewrite <- app_assoc.
Qed.

Lemma decimal_little (n : N) :
  decimal n
  = List.rev (lit (NilEmpty.string_of_uint (DecimalPos.Unsigned.to_lu n))).
Proof.
  unfold decimal.
  assert (N.to_uint n = Decimal.rev (DecimalPos.Unsigned.to_lu n)) as ->
    by (destruct n; reflexivity).
  unfold Decimal.rev. rewrite lit_revapp. apply app_nil_r.
Qed.

Lemma to_lu_digit (q r : N) :
  (0 < q)%N -> (r < 10)%N ->
  lit (NilEmpty.string_of_uint (DecimalPos.Unsigned.to_lu (10 * q + r)))
  = (48 + r)%N :: lit (NilEmpty.string_of_uint (DecimalPos.Unsigned.to_lu q)).
Proof.
  intros Hq Hr. destruct q as [|p]; [discriminate|].
  assert (Hc : (r = 0 \/ r = 1 \/ r = 2 \/ r = 3 \/ r = 4 \/ r = 5 \/ r = 6
                \/ r = 7 \/ r = 8 \/ r = 9)%N) by lia.
  repeat (destruct Hc as [->|Hc]); [..|subst r];
    repeat (rewrite N.add_succ_r
            || match goal with
               | |- context [(?a + N.pos ?b)%N] =>
                   change (a + N.pos b)%N with (a + N.succ (N.pred (N.pos b)))%N;
                   cbn [N.pred Pos.pred_N Pos.pred_double]
               end);
    rewrite ?N.add_0_r, ?DecimalPos.Unsigned.to_lu_succ, DecimalPos.Unsigned.to_ldec_tenfold;
    reflexivity.
Qed.

Lemma decimal_digit (q r : N) :
  (0 < q)%N -> (r < 10)%N ->
  decimal (10 * q + r) = decimal q ++ [(48 + r)%N].
Proof.
  intros Hq Hr. rewrite !decimal_little, to_lu_digit by assumption.
  reflexivity.
Qed.

Lemma decimal_one_digit (x : N) :
  (x < 10)%N -> decimal x = [(48 + x)%N].
Proof.
  intros H.
  assert (Hc : (x = 0 \/ x = 1 \/ x = 2 \/ x = 3 \/ x = 4 \/ x = 5 \/ x = 6
                \/ x = 7 \/ x = 8 \/ x = 9)%N) by lia.
  repeat (destruct Hc as [->|Hc]); [..|subst x]; reflexivity.
Qed.

Lemma decimal_tenfold (s : N) (j : nat) :
  (0 < s)%N ->
  decimal (s * 10 ^ N.of_nat j) = decimal s ++ repeat 48%N j.
Proof.
  intros Hs. induction j as [|j IH].
  - change (N.of_nat 0) with 0%N.
    now rewrite N.pow_0_r, N.mul_1_r, List.app_nil_r.
  - rewrite Nat2N.inj_succ, N.pow_succ_r'.
    replace (s * (10 * 10 ^ N.of_nat j))%N
      with (10 * (s * 10 ^ N.of_nat j) + 0)%N by lia.
    rewrite decimal_digit; [|apply N.mul_pos_pos; [exact Hs|]|reflexivity].
    + rewrite IH, <- app_assoc. f_equal.
      change [(48 + 0)%N] with (repeat 48%N 1).
      rewrite <- repeat_app. f_equal. lia.
    + apply N.lt_le_trans with 1%N; [reflexivity|].
      change 1%N with (10 ^ 0)%N at 1. apply N.pow_le_mono_r; lia.
Qed.

Lemma decimal_length (k : nat) (x : N) :
  (x < 10 ^ N.of_nat (S k))%N -> (List.length (decimal x) <= S k)%nat.
Proof.
  revert x. induction k as [|k IH]; intros x H.
  - rewrite decimal_one_digit by exact H. apply le_n.
  - destruct (N.lt_ge_cases x 10) as [Hx|Hx].
    + rewrite decimal_one_digit by exact Hx. cbn. lia.
    + rewrite (N.div_mod x 10) by discriminate.
      rewrite decimal_digit.
      * rewrite length_app. cbn [List.length].
        assert (List.length (decimal (x / 10)) <= S k)%nat; [|lia].
        apply IH. apply N.Div0.div_lt_upper_bound.
        now rewrite <- N.pow_succ_r', <- Nat2N.inj_succ.
      * apply N.div_str_pos. split; [reflexivity|exact Hx].
      * now apply N.mod_lt.
Qed.

Lemma Number_toString_safe (n : N) :
  (n < 2 ^ 53)%N -> Number_toString n = decimal n.
Proof.
  intros H. unfold Number_toString. rewrite (to_Number_safe n H).
  assert ((1024 <=? N.log2 n)%N = false) as ->.
  { apply N.leb_gt. destruct (N.eq_dec n 0) as [->|Hn]; [reflexivity|].
    apply N.lt_trans with 53%N; [|reflexivity].
    apply N.log2_lt_pow2; [lia|exact H]. }
  destruct (shortest_safe n (List.length (decimal n)) H) as [Hv Hs].
  destruct (shortest n (List.length (decimal n))) as [s j].
  cbn [fst snd] in Hv, Hs.
  assert (E : decimal n = decimal s ++ repeat 48%N j).
  { destruct Hs as [Hs| ->].
    - rewrite <- Hv at 1. now apply decimal_tenfold.
    - change (N.of_nat 0) with 0%N in Hv.
      rewrite N.pow_0_r, N.mul_1_r in Hv. subst s.
      now rewrite List.app_nil_r. }
  assert (L : (List.length (decimal s) + j <= 21)%nat).
  { pose proof (decimal_length 15 n) as B.
    rewrite E, length_app, repeat_length in B.
    assert (n < 10 ^ N.of_nat 16)%N; [|lia].
    apply N.lt_trans with (2 ^ 53)%N; [exact H|reflexivity]. }
  apply Nat.leb_le in L. rewrite L. now rewrite E.
Qed.

Lemma Number_toString_rounds :
  Number_toString (2 ^ 60) = lit "1152921504606847000"
  /\ Number_toString (2 ^ 53 + 1) = lit "9007199254740992"
  /\ Number_toString (10 ^ 21) = lit "1e+21"
  /\ Number_toString (2 ^ 100) = lit "1.2676506002282294e+30".
Proof. vm_compute. repeat split. Qed.

(** ** The state monad *)

Lemma bind_run {A B} (m : M A) (f : A -> M B) (s : Store) :
  bind m f s = f (fst (m s)) (snd (m s)).
Proof. unfold bind. destruct (m s); reflexivity. Qed.

Lemma mapM_cons {A B} (f : A -> M B) (x : A) (l : list A) (s : Store) :
  mapM f (x :: l) s =
  (fst (f x s) :: fst (mapM f l (snd (f x s))),
   snd (mapM f l (snd (f x s)))).
Proof.
  simpl. rewrite bind_run, bind_run. unfold ret. reflexivity.
Qed.

Lemma mapM_length {A B} (f : A -> M B) (l : list A) (s : Store) :
  List.length (fst (mapM f l s)) = List.length l.
Proof.
  revert s; induction l as [|x l IH]; intros s.
  - reflexivity.
  - rewrite mapM_cons. simpl. now rewrite IH.
Qed.

(** ** One contribution *)

Section Contribution.
Variable options : Options.

Lemma with_title_same (i : GitHubIssueResponse) :
  with_title i (title i) = i.
Proof. destruct i; reflexivity. Qed.

Lemma renderContribution_none (commit : CommitInfo) (s : Store) :
  githubIssue commit = None ->
  renderContribution options commit s = (None, s).
Proof. intros H. unfold renderContribution. now rewrite H. Qed.

Lemma renderContribution_out (commit : CommitInfo) (l : loc) (s : Store) :
  githubIssue commit = Some l ->
  fst (renderContribution options commit s) =
  Some (pr_prefix (s l) ++ rewriteTitle options (title (s l)) ++ author_suffix (s l)).
Proof.
  intros H. unfold renderContribution. rewrite H.
  unfold rewriteTitle, pr_prefix, author_suffix.
  rewrite !bind_run. unfold read_issue, ret; cbn [fst snd].
  destruct (truthy_string (title (s l))).
  - destruct (COMMIT_FIX_match (title (s l))).
    + unfold write_title; cbn [fst snd]. rewrite Nat.eqb_refl.
      reflexivity.
    + reflexivity.
  - reflexivity.
Qed.

Lemma renderContribution_store (commit : CommitInfo) (l : loc) (s : Store)
  (l' : loc) :
  githubIssue commit = Some l ->
  snd (renderContribution options commit s) l' =
  if Nat.eqb l' l then with_title (s l') (rewriteTitle options (title (s l')))
  else s l'.
Proof.
  intros H. unfold renderContribution. rewrite H.
  unfold rewriteTitle.
  rewrite !bind_run. unfold read_issue, ret; cbn [fst snd].
  destruct (Nat.eqb_spec l' l) as [->|Hne].
  - destruct (truthy_string (title (s l))).
    + destruct (COMMIT_FIX_match (title (s l))).
      * unfold write_title; cbn [fst snd]. now rewrite Nat.eqb_refl.
      * cbn. now rewrite with_title_same.
    + cbn. now rewrite with_title_same.
  - destruct (truthy_string (title (s l))).
    + destruct (COMMIT_FIX_match (title (s l))).
      * unfold write_title; cbn [fst snd].
        destruct (Nat.eqb_spec l' l); [contradiction|reflexivity].
      * reflexivity.
    + reflexivity.
Qed.
End Contribution.

(** ** What a rendering writes, and what it reads *)

Section Effects.
Variable options : Options.

Lemma Touches_ret {A} (a : A) : Touches options (ret a) [].
Proof.
  intros s l. unfold touched. cbn. now rewrite with_title_same.
Qed.

Lemma Touches_bind {A B} (m : M A) (f : A -> M B) (L1 L2 : list loc) :
  Touches options m L1 -> (forall a, Touches options (f a) L2) ->
  Touches options (bind m f) (L1 ++ L2).
Proof.
  intros H1 H2 s l. rewrite bind_run, H2. unfold touched.
  rewrite H1. unfold touched. cbn [title with_title number pull_request user].
  rewrite count_occ_app, Nat.add_comm, Nat.iter_add. reflexivity.
Qed.

Lemma Touches_mapM {A B} (f : A -> M B) (g : A -> list loc) (xs : list A) :
  (forall x, Touches options (f x) (g x)) ->
  Touches options (mapM f xs) (flat_map g xs).
Proof.
  intros H. induction xs as [|x xs IH].
  - apply Touches_ret.
  - cbn [mapM flat_map]. apply Touches_bind; [apply H|].
    intros y. rewrite <- (app_nil_r (flat_map g xs)).
    apply Touches_bind; [exact IH|]. intros ys. apply Touches_ret.
Qed.

Lemma Touches_then_ret {A B} (m : M A) (f : A -> B) (L : list loc) :
  Touches options m L -> Touches options (bind m (fun a => ret (f a))) L.
Proof.
  intros H. rewrite <- (app_nil_r L). apply Touches_bind; [exact H|].
  intros a. apply Touches_ret.
Qed.

Lemma Respects_ret {A} (a : A) : Respects options (ret a).
Proof. intros s s' H. cbn. auto. Qed.

Lemma Respects_bind {A B} (m : M A) (f : A -> M B) :
  Respects options m -> (forall a, Respects options (f a)) -> Respects options (bind m f).
Proof.
  intros H1 H2 s s' Hs. rewrite !bind_run.
  destruct (H1 s s' Hs) as [E1 S1]. rewrite E1.
  apply H2. exact S1.
Qed.

Lemma Respects_mapM {A B} (f : A -> M B) (xs : list A) :
  (forall x, Respects options (f x)) -> Respects options (mapM f xs).
Proof.
  intros H. induction xs as [|x xs IH].
  - apply Respects_ret.
  - cbn [mapM]. apply Respects_bind; [apply H|]. intros y.
    apply Respects_bind; [exact IH|]. intros ys. apply Respects_ret.
Qed.

Lemma Touches_renderContribution (commit : CommitInfo) :
  Touches options (renderContribution options commit) (contribution_locs commit).
Proof.
  intros s l'. unfold contribution_locs, touched.
  destruct (githubIssue commit) as [l|] eqn:E.
  - rewrite (renderContribution_store options commit l s l' E).
    cbn [count_occ].
    destruct (Nat.eqb_spec l' l) as [->|Hne].
    + destruct (Nat.eq_dec l l); [reflexivity|contradiction].
    + destruct (Nat.eq_dec l l') as [->|_]; [contradiction|].
      cbn. now rewrite with_title_same.
  - rewrite (renderContribution_none options commit s E).
    cbn. now rewrite with_title_same.
Qed.

Lemma Respects_renderContribution (commit : CommitInfo) :
  Respects options (renderContribution options commit).
Proof.
  intros s s' Hs.
  destruct (githubIssue commit) as [l|] eqn:E.
  - split.
    + rewrite !(renderContribution_out options commit l _ E).
      destruct (Hs l) as (Hn & Hp & Hu & Ht).
      unfold pr_prefix, author_suffix. now rewrite Hn, Hp, Hu, Ht.
    + intros l'.
      rewrite !(renderContribution_store options commit l _ l' E).
      destruct (Hs l') as (Hn & Hp & Hu & Ht).
      destruct (Nat.eqb l' l); cbn; auto.
      repeat split; auto. now rewrite Ht.
  - rewrite !(renderContribution_none options commit _ E). cbn. auto.
Qed.

Lemma Touches_renderContributionList commits prefix :
  Touches options (renderContributionList options commits prefix)
          (list_locs commits).
Proof.
  unfold renderContributionList. apply Touches_then_ret.
  apply Touches_mapM. apply Touches_renderContribution.
Qed.

Lemma Respects_renderContributionList commits prefix :
  Respects options (renderContributionList options commits prefix).
Proof.
  unfold renderContributionList. apply Respects_bind.
  - apply Respects_mapM. apply Respects_renderContribution.
  - intros a. apply Respects_ret.
Qed.

Lemma Touches_renderContributionsByPackage commits :
  Touches options (renderContributionsByPackage options commits)
          (package_locs commits).
Proof.
  unfold renderContributionsByPackage, package_locs.
  apply Touches_then_ret. apply Touches_mapM. intros k.
  apply Touches_then_ret. apply Touches_renderContributionList.
Qed.

Lemma Respects_renderContributionsByPackage commits :
  Respects options (renderContributionsByPackage options commits).
Proof.
  unfold renderContributionsByPackage. apply Respects_bind.
  - apply Respects_mapM. intros k. apply Respects_bind.
    + apply Respects_renderContributionList.
    + intros a. apply Respects_ret.
  - intros a. apply Respects_ret.
Qed.

Lemma Touches_renderCategories cats markdown :
  Touches options (renderCategories options cats markdown)
          (flat_map category_locs cats).
Proof.
  revert markdown. induction cats as [|c cats IH]; intros markdown.
  - apply Touches_ret.
  - cbn [renderCategories flat_map]. apply Touches_bind.
    + unfold category_locs. destruct (hasPackages (category_commits c)).
      * apply Touches_renderContributionsByPackage.
      * apply Touches_renderContributionList.
    + intros body. apply IH.
Qed.

Lemma Respects_renderCategories cats markdown :
  Respects options (renderCategories options cats markdown).
Proof.
  revert markdown. induction cats as [|c cats IH]; intros markdown.
  - apply Respects_ret.
  - cbn [renderCategories]. apply Respects_bind.
    + destruct (hasPackages (category_commits c)).
      * apply Respects_renderContributionsByPackage.
      * apply Respects_renderContributionList.
    + intros body. apply IH.
Qed.

Lemma Touches_renderRelease release :
  Touches options (renderRelease options release) (release_locs options release).
Proof.
  unfold renderRelease, release_locs. fold (categoriesWithCommits options release).
  destruct (Nat.eqb_spec (List.length (categoriesWithCommits options release)) 0)
    as [E|E].
  - apply length_zero_iff_nil in E. rewrite E. apply Touches_ret.
  - apply Touches_then_ret. apply Touches_renderCategories.
Qed.

Lemma Respects_renderRelease release :
  Respects options (renderRelease options release).
Proof.
  unfold renderRelease.
  match goal with |- context [if ?b then _ else _] => destruct b end.
  - apply Respects_ret.
  - apply Respects_bind.
    + apply Respects_renderCategories.
    + intros a. apply Respects_ret.
Qed.

Lemma Touches_renderMarkdown releases :
  Touches options (renderMarkdown options releases) (markdown_locs options releases).
Proof.
  unfold renderMarkdown. apply Touches_then_ret. apply Touches_mapM.
  apply Touches_renderRelease.
Qed.
End Effects.

(** ** Grouping by package *)

Lemma jstr_eqb_eq (a b : jstr) : jstr_eqb a b = true <-> a = b.
Proof.
  unfold jstr_eqb. destruct (list_eq_dec N.eq_dec a b); split; congruence.
Qed.

Lemma jstr_eqb_refl (a : jstr) : jstr_eqb a a = true.
Proof. now apply jstr_eqb_eq. Qed.

Lemma jstr_eqb_neq (a b : jstr) : jstr_eqb a b = false <-> a <> b.
Proof.
  unfold jstr_eqb. destruct (list_eq_dec N.eq_dec a b); split; congruence.
Qed.

Lemma obj_get_None {V} (o : JSObject V) (k : jstr) :
  obj_get o k = None <-> ~ In k (keys o).
Proof.
  induction o as [|[k' v] o IH]; cbn.
  - tauto.
  - destruct (jstr_eqb k' k) eqn:E.
    + apply jstr_eqb_eq in E. split; [discriminate|]. intros H. tauto.
    + apply jstr_eqb_neq in E. rewrite IH. tauto.
Qed.

Lemma obj_get_set_same {V} (o : JSObject V) (k : jstr) (v : V) :
  obj_get (obj_set o k v) k = Some v.
Proof.
  induction o as [|[k' v'] o IH]; cbn.
  - now rewrite jstr_eqb_refl.
  - destruct (jstr_eqb k' k) eqn:E; cbn; rewrite E; auto.
Qed.

Lemma obj_get_set_other {V} (o : JSObject V) (k k' : jstr) (v : V) :
  k <> k' -> obj_get (obj_set o k v) k' = obj_get o k'.
Proof.
  intros Hne. induction o as [|[k0 v0] o IH]; cbn.
  - apply jstr_eqb_neq in Hne. now rewrite Hne.
  - destruct (jstr_eqb k0 k) eqn:E; cbn.
    + apply jstr_eqb_eq in E; subst k0.
      apply jstr_eqb_neq in Hne. now rewrite Hne.
    + now rewrite IH.
Qed.

Lemma keys_obj_set {V} (o : JSObject V) (k : jstr) (v : V) :
  keys (obj_set o k v) =
  if existsb (jstr_eqb k) (keys o) then keys o else keys o ++ [k].
Proof.
  induction o as [|[k' v'] o IH]; cbn.
  - reflexivity.
  - destruct (jstr_eqb k' k) eqn:E; cbn.
    + apply jstr_eqb_eq in E; subst k'. now rewrite jstr_eqb_refl.
    + assert (jstr_eqb k k' = false) as ->.
      { apply jstr_eqb_neq. apply jstr_eqb_neq in E. congruence. }
      cbn. unfold keys in IH. rewrite IH.
      now destruct (existsb (jstr_eqb k) (map fst o)).
Qed.

Lemma existsb_jstr_eqb (k : jstr) (l : list jstr) :
  existsb (jstr_eqb k) l = true <-> In k l.
Proof.
  rewrite existsb_exists. split.
  - intros (x & Hx & E). apply jstr_eqb_eq in E. now subst.
  - intros H. exists k. split; [exact H|apply jstr_eqb_refl].
Qed.

Lemma first_seen_In (l : list jstr) (k : jstr) :
  In k (first_seen l) <-> In k l.
Proof.
  induction l as [|x l IH]; cbn; [tauto|].
  rewrite filter_In, IH.
  destruct (jstr_eqb x k) eqn:E.
  - apply jstr_eqb_eq in E. subst. cbn. intuition congruence.
  - cbn. apply jstr_eqb_neq in E. intuition congruence.
Qed.

Lemma first_seen_NoDup (l : list jstr) : NoDup (first_seen l).
Proof.
  induction l as [|x l IH]; cbn; constructor.
  - rewrite filter_In, jstr_eqb_refl. cbn. intros [_ H]. discriminate.
  - now apply NoDup_filter.
Qed.

Lemma filter_absent (x : jstr) (l : list jstr) :
  ~ In x l -> filter (fun y => negb (jstr_eqb x y)) l = l.
Proof.
  induction l as [|y l IH]; cbn; intros H; [reflexivity|].
  destruct (jstr_eqb x y) eqn:E.
  - apply jstr_eqb_eq in E. subst. tauto.
  - cbn. rewrite IH; tauto.
Qed.

Lemma first_seen_snoc (l : list jstr) (x : jstr) :
  first_seen (l ++ [x]) =
  if existsb (jstr_eqb x) (first_seen l) then first_seen l
  else first_seen l ++ [x].
Proof.
  induction l as [|y l IH]; cbn.
  - reflexivity.
  - rewrite IH. destruct (jstr_eqb x y) eqn:E.
    + cbn. apply jstr_eqb_eq in E. subst y.
      destruct (existsb (jstr_eqb x) (first_seen l)) eqn:E1.
      * reflexivity.
      * rewrite filter_app. cbn. rewrite jstr_eqb_refl. cbn.
        now rewrite app_nil_r.
    + cbn. assert (jstr_eqb y x = false) as Eyx.
      { apply jstr_eqb_neq. apply jstr_eqb_neq in E. congruence. }
      destruct (existsb (jstr_eqb x) (first_seen l)) eqn:E1.
      * assert (existsb (jstr_eqb x)
                  (filter (fun z => negb (jstr_eqb y z)) (first_seen l)) = true)
          as ->; [|reflexivity].
        apply existsb_jstr_eqb. apply filter_In. split.
        -- now apply existsb_jstr_eqb.
        -- now rewrite Eyx.
      * assert (existsb (jstr_eqb x)
                  (filter (fun z => negb (jstr_eqb y z)) (first_seen l)) = false)
          as ->.
        { apply not_true_is_false. intros H. apply existsb_jstr_eqb in H.
          apply filter_In in H. destruct H as [H _].
          apply existsb_jstr_eqb in H. congruence. }
        rewrite filter_app. cbn. now rewrite Eyx.
Qed.

Lemma filter_none {A} (f : A -> bool) (l : list A) :
  (forall x, In x l -> f x = false) -> filter f l = [].
Proof.
  induction l as [|x l IH]; cbn; intros H; [reflexivity|].
  rewrite (H x (or_introl eq_refl)). apply IH. intros y Hy. apply H. now right.
Qed.

Lemma commitsByPackage_snoc (commits : list CommitInfo) (c : CommitInfo) :
  commitsByPackage (commits ++ [c]) = add_commit (commitsByPackage commits) c.
Proof. unfold commitsByPackage. now rewrite fold_left_app. Qed.

Lemma keys_add_commit o c :
  keys (add_commit o c) =
  if existsb (jstr_eqb (package_label c)) (keys o) then keys o
  else keys o ++ [package_label c].
Proof.
  unfold add_commit. fold (package_label c).
  rewrite !keys_obj_set.
  destruct (existsb (jstr_eqb (package_label c)) (keys o)) eqn:E.
  - now rewrite E.
  - rewrite existsb_app. cbn. rewrite jstr_eqb_refl.
    now rewrite orb_true_r.
Qed.

Lemma get_add_commit o c k :
  obj_get (add_commit o c) k =
  if jstr_eqb (package_label c) k
  then Some (group_commits o k ++ [c])
  else obj_get o k.
Proof.
  unfold add_commit, group_commits. fold (package_label c).
  destruct (jstr_eqb (package_label c) k) eqn:E.
  - apply jstr_eqb_eq in E. subst k.
    now rewrite obj_get_set_same, obj_get_set_same.
  - apply jstr_eqb_neq in E. now rewrite !obj_get_set_other.
Qed.

Lemma commitsByPackage_keys (commits : list CommitInfo) :
  keys (commitsByPackage commits) = first_seen (map package_label commits).
Proof.
  induction commits as [|c commits IH] using rev_ind.
  - reflexivity.
  - rewrite commitsByPackage_snoc, keys_add_commit, map_app.
    cbn [map]. rewrite first_seen_snoc. now rewrite IH.
Qed.

Lemma commitsByPackage_get (commits : list CommitInfo) (k : jstr) :
  In k (map package_label commits) ->
  obj_get (commitsByPackage commits) k =
  Some (filter (fun c => jstr_eqb (package_label c) k) commits).
Proof.
  induction commits as [|c commits IH] using rev_ind.
  - intros [].
  - intros H. rewrite commitsByPackage_snoc, get_add_commit, filter_app.
    cbn [filter]. unfold group_commits.
    destruct (jstr_eqb (package_label c) k) eqn:E.
    + destruct (in_dec (list_eq_dec N.eq_dec) k (map package_label commits))
        as [Hin|Hout].
      * now rewrite (IH Hin).
      * assert (obj_get (commitsByPackage commits) k = None) as ->.
        { apply obj_get_None. rewrite commitsByPackage_keys.
          now rewrite first_seen_In. }
        assert (filter (fun c0 => jstr_eqb (package_label c0) k) commits = [])
          as ->; [|reflexivity].
        apply filter_none. intros c0 Hc0.
        destruct (jstr_eqb (package_label c0) k) eqn:E0; [|reflexivity].
        apply jstr_eqb_eq in E0. exfalso. apply Hout. subst k.
        now apply in_map.
    + rewrite app_nil_r. apply IH.
      rewrite map_app in H. apply in_app_or in H. destruct H as [H|H].
      * exact H.
      * cbn in H. apply jstr_eqb_neq in E. tauto.
Qed.

Lemma renderPackageNames_Other (ps : list jstr) :
  renderPackageNames ps = lit "Other" <-> ps = [].
Proof.
  split.
  - destruct ps as [|p ps]; [reflexivity|].
    unfold renderPackageNames. destruct ps; cbn; discriminate.
  - intros ->. reflexivity.
Qed.

Lemma renderPackageNames_not_index (ps : list jstr) :
  array_index (renderPackageNames ps) = None.
Proof.
  destruct ps as [|p ps]; [reflexivity|].
  unfold renderPackageNames. destruct ps; reflexivity.
Qed.

(** A label is [Other] or starts with a backquote: it is not the name of
    a property that [commitsByPackage], a plain object, inherits. *)
Lemma renderPackageNames_shape (ps : list jstr) :
  renderPackageNames ps = lit "Other"
  \/ exists rest, renderPackageNames ps = chr "`" :: rest.
Proof.
  destruct ps as [|p ps]; [now left|right].
  unfold renderPackageNames. destruct ps; cbn; eexists; reflexivity.
Qed.

Lemma Object_keys_no_index {V} (o : JSObject V) :
  (forall k, In k (keys o) -> array_index k = None) ->
  Object_keys o = keys o.
Proof.
  intros H. unfold Object_keys.
  assert (index_keys o = [] /\ string_keys o = keys o) as [-> ->];
    [|reflexivity].
  induction o as [|[k v] o IH]; cbn; [auto|].
  rewrite (H k (or_introl eq_refl)).
  destruct IH as [-> ->]; [|auto].
  intros k' Hk'. apply H. now right.
Qed.

Lemma Object_keys_commitsByPackage (commits : list CommitInfo) :
  Object_keys (commitsByPackage commits) =
  first_seen (map package_label commits).
Proof.
  rewrite Object_keys_no_index; [apply commitsByPackage_keys|].
  intros k Hk. rewrite commitsByPackage_keys, first_seen_In in Hk.
  apply in_map_iff in Hk. destruct Hk as (c & <- & _).
  apply renderPackageNames_not_index.
Qed.

Lemma group_commits_filter (commits : list CommitInfo) (k : jstr) :
  group_commits (commitsByPackage commits) k =
  filter (fun c => jstr_eqb (package_label c) k) commits.
Proof.
  unfold group_commits.
  destruct (in_dec (list_eq_dec N.eq_dec) k (map package_label commits))
    as [Hin|Hout].
  - now rewrite commitsByPackage_get.
  - assert (obj_get (commitsByPackage commits) k = None) as ->.
    { apply obj_get_None. rewrite commitsByPackage_keys.
      now rewrite first_seen_In. }
    symmetry. apply filter_none. intros c0 Hc0.
    destruct (jstr_eqb (package_label c0) k) eqn:E0; [|reflexivity].
    apply jstr_eqb_eq in E0. exfalso. apply Hout. subst k.
    now apply in_map.
Qed.

(** ** Grouping by category *)

Lemma has_category_carries (name : jstr) (commit : CommitInfo) :
  has_category name commit = true <-> carries commit name.
Proof.
  unfold has_category, carries. destruct (categories commit) as [cs|].
  - rewrite existsb_jstr_eqb. split.
    + intros H. now exists cs.
    + intros (cs' & E & H). now inversion E; subst.
  - split; [discriminate|]. intros (cs' & E & _). discriminate.
Qed.

Lemma groupByCategory_drop (options : Options) (cs : list CommitInfo) :
  groupByCategory options (filter (in_some_category options) cs) =
  groupByCategory options cs.
Proof.
  unfold groupByCategory. apply map_ext_in. intros name Hname. f_equal.
  induction cs as [|c cs IH]; cbn; [reflexivity|].
  destruct (in_some_category options c) eqn:E; cbn.
  - now rewrite IH.
  - assert (has_category name c = false) as ->; [|exact IH].
    apply not_true_is_false. intros H.
    unfold in_some_category in E.
    assert (existsb (fun n => has_category n c) (options_categories options)
            = true) as E'; [|congruence].
    apply existsb_exists. now exists name.
Qed.

Lemma filter_perm_nonempty {A} (f : A -> bool) (l l' : list A) :
  Permutation l l' ->
  Nat.ltb 0 (List.length (filter f l)) = Nat.ltb 0 (List.length (filter f l')).
Proof.
  intros H. f_equal. apply Permutation_length.
  induction H; cbn.
  - constructor.
  - destruct (f x); auto.
  - destruct (f x), (f y); auto. apply perm_swap.
  - eapply perm_trans; eauto.
Qed.

Lemma map_filter_map {A B} (g : A -> B) (f : B -> A) (p : B -> bool)
  (l : list A) :
  (forall x, f (g x) = x) ->
  map f (filter p (map g l)) = filter (fun x => p (g x)) l.
Proof.
  intros H. induction l as [|x l IH]; [reflexivity|].
  cbn [map filter]. destruct (p (g x)); cbn [map]; now rewrite IH, ?H.
Qed.

Lemma categoriesWithCommits_names (options : Options) (release : Release) :
  map category_name (categoriesWithCommits options release) =
  filter (fun name =>
            Nat.ltb 0 (List.length
                         (filter (has_category name) (commits release))))
         (options_categories options).
Proof.
  unfold categoriesWithCommits, groupByCategory.
  now rewrite map_filter_map.
Qed.

Lemma categoriesWithCommits_buckets (options : Options) (release : Release) :
  categoriesWithCommits options release
  = map (fun name =>
           {| category_name := name;
              category_commits :=
                filter (has_category name) (commits release) |})
      (filter (fun name =>
                 Nat.ltb 0 (List.length
                              (filter (has_category name) (commits release))))
         (options_categories options)).
Proof.
  unfold categoriesWithCommits, groupByCategory.
  induction (options_categories options) as [|name names IH]; [reflexivity|].
  cbn [map filter category_commits].
  destruct (Nat.ltb 0 _); cbn [map]; now rewrite IH.
Qed.

Lemma renderCategories_sections (options : Options)
  (allCommits : list CommitInfo) (names : list jstr) (markdown : jstr)
  (s : Store) :
  exists text s',
    Sections options allCommits names s text s'
    /\ renderCategories options
         (map (fun name =>
                 {| category_name := name;
                    category_commits :=
                      filter (has_category name) allCommits |}) names)
         markdown s
       = (markdown ++ text, s').
Proof.
  revert markdown s. induction names as [|name names IH]; intros markdown s.
  - exists [], s. split; [constructor|]. cbn. unfold ret.
    now rewrite app_nil_r.
  - cbn [map renderCategories category_name category_commits].
    rewrite bind_run.
    set (run := if hasPackages (filter (has_category name) allCommits)
                then renderContributionsByPackage options
                       (filter (has_category name) allCommits)
                else renderContributionList options
                       (filter (has_category name) allCommits) []).
    destruct (run s) as [body s1] eqn:E. cbn [fst snd].
    destruct (IH ((markdown ++ (LF ++ LF) ++ lit "#### " ++ name ++ LF)
                    ++ body) s1) as (text & s' & HS & HR).
    exists (LF ++ LF ++ lit "#### " ++ name ++ LF ++ body ++ text), s'.
    split.
    + apply (Sections_cons options allCommits name names s s1 s' body text);
        [|exact HS].
      subst run. now destruct (hasPackages _).
    + rewrite HR. f_equal. now rewrite <- !app_assoc.
Qed.

Lemma renderRelease_sections (options : Options) (release : Release)
  (s : Store) :
  filter (fun name =>
            Nat.ltb 0 (List.length
                         (filter (has_category name) (commits release))))
    (options_categories options) <> [] ->
  exists text s',
    Sections options (commits release)
      (filter (fun name =>
                 Nat.ltb 0 (List.length
                              (filter (has_category name) (commits release))))
         (options_categories options)) s text s'
    /\ renderRelease options release s
       = (lit "## "
            ++ (if jstr_eqb (release_name release) UNRELEASED_TAG
                then lit "Unreleased" else release_name release)
            ++ lit " (" ++ date release ++ lit ")" ++ text
            ++ match contributors release with
               | Some cs => LF ++ LF ++ renderContributorList cs
               | None => []
               end, s').
Proof.
  intros Hne. unfold renderRelease.
  fold (categoriesWithCommits options release).
  rewrite categoriesWithCommits_buckets, length_map.
  set (names := filter _ (options_categories options)) in *.
  destruct (Nat.eqb_spec (List.length names) 0) as [L|_].
  { apply length_zero_iff_nil in L. contradiction. }
  rewrite bind_run.
  match goal with
  | |- context [renderCategories options _ ?m s] =>
      destruct (renderCategories_sections options (commits release)
                  names m s) as (text & s' & HS & HR)
  end.
  exists text, s'. split; [exact HS|].
  rewrite HR. cbn [fst snd ret].
  destruct (contributors release); f_equal; rewrite <- ?app_assoc;
    repeat f_equal; now rewrite ?app_nil_r.
Qed.

Lemma renderRelease_two_headings (options : Options) (c : CommitInfo)
  (release : Release) (s : Store) :
  categories c = Some [lit "Feature"; lit "Bug"] ->
  options_categories options = [lit "Bug"; lit "Feature"] ->
  commits release = [c] ->
  let run := if hasPackages [c]
             then renderContributionsByPackage options [c]
             else renderContributionList options [c] [] in
  renderRelease options release s
  = (lit "## "
       ++ (if jstr_eqb (release_name release) UNRELEASED_TAG
           then lit "Unreleased" else release_name release)
       ++ lit " (" ++ date release ++ lit ")"
       ++ LF ++ LF ++ lit "#### Bug" ++ LF ++ fst (run s)
       ++ LF ++ LF ++ lit "#### Feature" ++ LF ++ fst (run (snd (run s)))
       ++ match contributors release with
          | Some cs => LF ++ LF ++ renderContributorList cs
          | None => []
          end,
     snd (run (snd (run s)))).
Proof.
  intros Hc Ho Hr run.
  assert (HB : has_category (lit "Bug") c = true)
    by (unfold has_category; rewrite Hc; reflexivity).
  assert (HF : has_category (lit "Feature") c = true)
    by (unfold has_category; rewrite Hc; reflexivity).
  unfold renderRelease, groupByCategory. rewrite Hr, Ho.
  cbn [map filter category_commits]. rewrite HB, HF.
  cbn [List.length Nat.ltb Nat.leb Nat.eqb filter category_commits].
  rewrite bind_run. cbn [renderCategories category_name category_commits].
  rewrite !bind_run. fold run. cbn [ret fst snd].
  destruct (contributors release); f_equal; rewrite <- ?app_assoc;
    repeat f_equal; now rewrite ?app_nil_r.
Qed.

(** C3: [groupByCategory] yields one bucket per configured category, in
    the configured order, whatever the order of the commits; each bucket
    is the input commit list filtered by "carries this label", so it keeps
    the input order and a commit sits in every bucket whose label it
    carries; the headings that [renderRelease] emits are the configured
    categories with a non-empty bucket, in the configured order, and do not
    change when the commits are permuted; a commit that carries no
    configured category is in no bucket and removing it changes nothing in
    what [renderRelease] returns; a commit labelled Feature and Bug under
    the configuration Bug, Feature is in both buckets, Bug first.  The text
    that [renderRelease] returns is the release heading, then one section
    for each configured category that some commit has, in the configured
    order, each with its heading and the contributions of the commits that
    have the category, in input order, then the contributors; for the
    commit labelled Feature and Bug it is the section headed Bug with the
    commit followed by the section headed Feature with the commit. *)
Theorem groupByCategory_buckets (options : Options)
  (allCommits : list CommitInfo) :
  map category_name (groupByCategory options allCommits)
    = options_categories options
  /\ (forall b, In b (groupByCategory options allCommits) ->
        category_commits b
          = filter (has_category (category_name b)) allCommits)
  /\ (forall b c, In b (groupByCategory options allCommits) ->
        (In c (category_commits b)
           <-> In c allCommits /\ carries c (category_name b)))
  /\ (forall c,
        (forall name, In name (options_categories options) ->
                      ~ carries c name) ->
        forall b, In b (groupByCategory options allCommits) ->
                  ~ In c (category_commits b))
  /\ (forall release,
        commits release = allCommits ->
        map category_name (categoriesWithCommits options release)
          = filter (fun name =>
                      Nat.ltb 0 (List.length
                                   (filter (has_category name) allCommits)))
                   (options_categories options)
        /\ (forall s,
              renderRelease options
                (with_commits release
                   (filter (in_some_category options) allCommits)) s
              = renderRelease options release s))
  /\ (forall release release',
        commits release = allCommits ->
        Permutation allCommits (commits release') ->
        map category_name (groupByCategory options (commits release'))
          = map category_name (groupByCategory options allCommits)
        /\ map category_name (categoriesWithCommits options release')
          = map category_name (categoriesWithCommits options release))
  /\ (forall c,
        categories c = Some [lit "Feature"; lit "Bug"] ->
        options_categories options = [lit "Bug"; lit "Feature"] ->
        groupByCategory options [c]
          = [ {| category_name := lit "Bug"; category_commits := [c] |};
              {| category_name := lit "Feature"; category_commits := [c] |} ])
  /\ (forall release s,
        commits release = allCommits ->
        filter (fun name =>
                  Nat.ltb 0 (List.length
                               (filter (has_category name) allCommits)))
          (options_categories options) <> [] ->
        exists text s',
          Sections options allCommits
            (filter (fun name =>
                       Nat.ltb 0 (List.length
                                    (filter (has_category name) allCommits)))
               (options_categories options)) s text s'
          /\ renderRelease options release s
             = (lit "## "
                  ++ (if jstr_eqb (release_name release) UNRELEASED_TAG
                      then lit "Unreleased" else release_name release)
                  ++ lit " (" ++ date release ++ lit ")" ++ text
                  ++ match contributors release with
                     | Some cs => LF ++ LF ++ renderContributorList cs
                     | None => []
                     end, s'))
  /\ (forall c release s,
        categories c = Some [lit "Feature"; lit "Bug"] ->
        options_categories options = [lit "Bug"; lit "Feature"] ->
        commits release = [c] ->
        let run := if hasPackages [c]
                   then renderContributionsByPackage options [c]
                   else renderContributionList options [c] [] in
        renderRelease options release s
        = (lit "## "
             ++ (if jstr_eqb (release_name release) UNRELEASED_TAG
                 then lit "Unreleased" else release_name release)
             ++ lit " (" ++ date release ++ lit ")"
             ++ LF ++ LF ++ lit "#### Bug" ++ LF ++ fst (run s)
             ++ LF ++ LF ++ lit "#### Feature" ++ LF
             ++ fst (run (snd (run s)))
             ++ match contributors release with
                | Some cs => LF ++ LF ++ renderContributorList cs
                | None => []
                end,
           snd (run (snd (run s))))).
Proof.
  assert (Hb : forall b, In b (groupByCategory options allCommits) ->
                category_commits b
                  = filter (has_category (category_name b)) allCommits).
  { intros b Hin. unfold groupByCategory in Hin.
    apply in_map_iff in Hin. destruct Hin as (name & <- & _). reflexivity. }
  assert (Hn : forall cs, map category_name (groupByCategory options cs)
                          = options_categories options).
  { intros cs. unfold groupByCategory. rewrite map_map. cbn. apply map_id. }
  split; [apply Hn|]. split; [exact Hb|].
  split.
  { intros b c Hin. rewrite (Hb b Hin), filter_In, has_category_carries.
    tauto. }
  split.
  { intros c Hnone b Hin Hc.
    rewrite (Hb b Hin), filter_In, has_category_carries in Hc.
    apply (Hnone (category_name b)); [|tauto].
    rewrite <- (Hn allCommits). now apply in_map. }
  split.
  { intros release H. split.
    - rewrite categoriesWithCommits_names. now rewrite H.
    - intros s. unfold renderRelease. cbn [commits with_commits].
      rewrite <- H, groupByCategory_drop. reflexivity. }
  split.
  { intros release release' H HP. split.
    - now rewrite !Hn.
    - rewrite !categoriesWithCommits_names. apply filter_ext. intros name.
      rewrite H. symmetry. now apply filter_perm_nonempty. }
  split.
  { intros c Hc Ho. unfold groupByCategory. rewrite Ho. cbn.
    unfold has_category. rewrite Hc. reflexivity. }
  split.
  { intros release s H Hne. rewrite <- H in Hne |- *.
    now apply renderRelease_sections. }
  intros c release s Hc Ho Hr. now apply renderRelease_two_headings.
Qed.

Lemma groupByCategory_buckets_witness :
  groupByCategory options_example [commit_feature_bug]
  = [ {| category_name := lit "Bug";
         category_commits := [commit_feature_bug] |};
      {| category_name := lit "Feature";
         category_commits := [commit_feature_bug] |} ]
  /\ fst (renderRelease options_example (release_example [commit_feature_bug])
            (store_of (issue_titled (lit "Add a flag"))))
     = lit "## v1.0.0 (2020-01-01)" ++ LF ++ LF
         ++ lit "#### Bug" ++ LF
         ++ lit "* [#7](https://github.com/o/r/pull/7) Add a flag. ([@bob](https://github.com/bob))"
         ++ LF ++ LF
         ++ lit "#### Feature" ++ LF
         ++ lit "* [#7](https://github.com/o/r/pull/7) Add a flag. ([@bob](https://github.com/bob))".
Proof.
  destruct (groupByCategory_buckets options_example [commit_feature_bug])
    as (_ & _ & _ & _ & _ & _ & Hb & _ & Ht).
  split.
  - apply Hb; reflexivity.
  - rewrite (Ht commit_feature_bug (release_example [commit_feature_bug])
               (store_of (issue_titled (lit "Add a flag")))
               eq_refl eq_refl eq_refl).
    reflexivity.
Defined.

(** ** Releases and their join *)

Lemma mapM_app {A B} (f : A -> M B) (l1 l2 : list A) (s : Store) :
  mapM f (l1 ++ l2) s =
  (fst (mapM f l1 s) ++ fst (mapM f l2 (snd (mapM f l1 s))),
   snd (mapM f l2 (snd (mapM f l1 s)))).
Proof.
  revert s. induction l1 as [|x l1 IH]; intros s.
  - cbn. now destruct (mapM f l2 s).
  - rewrite <- app_comm_cons, !mapM_cons, IH. reflexivity.
Qed.

Lemma renderCategories_prefix options cats markdown s :
  exists rest,
    fst (renderCategories options cats markdown s) = markdown ++ rest.
Proof.
  revert markdown s. induction cats as [|c cats IH]; intros markdown s.
  - exists []. cbn. now rewrite app_nil_r.
  - cbn [renderCategories]. rewrite bind_run.
    match goal with
    | |- context [renderCategories options cats ?m ?s'] =>
        destruct (IH m s') as [rest Hrest]; rewrite Hrest
    end.
    eexists. rewrite <- !app_assoc. reflexivity.
Qed.

Lemma renderRelease_empty options release :
  categoriesWithCommits options release = [] ->
  forall s, renderRelease options release s = ([], s).
Proof.
  intros H s. unfold renderRelease. fold (categoriesWithCommits options release).
  now rewrite H.
Qed.

Lemma renderRelease_heading options release s :
  categoriesWithCommits options release <> [] ->
  exists rest, fst (renderRelease options release s) = lit "## " ++ rest.
Proof.
  intros H. unfold renderRelease.
  fold (categoriesWithCommits options release).
  destruct (categoriesWithCommits options release) as [|c cats] eqn:E;
    [congruence|].
  cbn [List.length Nat.eqb]. rewrite bind_run.
  match goal with
  | |- context [renderCategories options ?cs ?m ?s'] =>
      destruct (renderCategories_prefix options cs m s') as [rest Hrest];
      rewrite Hrest
  end.
  cbn [ret fst]. destruct (contributors release);
    eexists; rewrite <- !app_assoc; reflexivity.
Qed.

Lemma renderRelease_shape options release s :
  fst (renderRelease options release s) = []
  \/ exists rest, fst (renderRelease options release s) = lit "## " ++ rest.
Proof.
  destruct (categoriesWithCommits options release) eqn:E.
  - left. now rewrite renderRelease_empty.
  - right. apply renderRelease_heading. congruence.
Qed.

Lemma no_bucket options release :
  (forall c name, In c (commits release) ->
                  In name (options_categories options) ->
                  has_category name c = false) ->
  categoriesWithCommits options release = [].
Proof.
  intros H. unfold categoriesWithCommits, groupByCategory.
  apply filter_none. intros b Hb. apply in_map_iff in Hb.
  destruct Hb as (name & <- & Hname). cbn.
  rewrite filter_none; [reflexivity|].
  intros c Hc. now apply H.
Qed.

(** C4: a release none of whose commits carries a configured category
    renders to the empty string, leaves the store as it is, and
    [renderMarkdown] returns what it returns without that release. *)
Theorem renderRelease_no_matching_commits (options : Options)
  (release : Release) :
  (forall c name, In c (commits release) ->
                  In name (options_categories options) ->
                  has_category name c = false) ->
  (forall s, renderRelease options release s = ([], s))
  /\ (forall before after s,
        renderMarkdown options (before ++ release :: after) s
        = renderMarkdown options (before ++ after) s).
Proof.
  intros H.
  assert (E : forall s, renderRelease options release s = ([], s)).
  { apply renderRelease_empty. now apply no_bucket. }
  split; [exact E|].
  intros before after s. unfold renderMarkdown.
  rewrite !bind_run, !mapM_app, mapM_cons, E. cbn [fst snd ret].
  rewrite !filter_app. reflexivity.
Qed.

Lemma renderRelease_no_matching_commits_witness :
  renderRelease options_example (release_example [commit_docs])
    (store_of (issue_titled (lit "fixes #42")))
  = ([], store_of (issue_titled (lit "fixes #42"))).
Proof.
  apply (renderRelease_no_matching_commits options_example
           (release_example [commit_docs])).
  intros c name Hc Hname. cbn in Hc, Hname.
  destruct Hc as [<-|[]]. destruct Hname as [<-|[<-|[]]]; reflexivity.
Defined.

Lemma join_nonempty (sep : jstr) (l : list jstr) :
  l <> [] -> (forall x, In x l -> x <> []) -> join sep l <> [].
Proof.
  destruct l as [|x l]; [congruence|]. intros _ H. cbn.
  assert (x <> []) by (apply H; now left).
  destruct l; [assumption|]. destruct x; [congruence|discriminate].
Qed.

(** C5: [renderMarkdown] returns a line feed followed by the renderings of
    the releases that are not empty, in input order, joined by three line
    feeds; each release is rendered in the store the previous ones left.
    Spelled out release by release: no release gives the line feed alone;
    a release that renders to the empty string contributes nothing; a
    release that renders to [m] contributes [m], followed by the separator
    exactly when a later release renders to something.  What follows the
    leading line feed is empty or starts with a release heading, so the
    line feed is the only leading one. *)
Theorem renderMarkdown_join (options : Options) (releases : list Release)
  (s : Store) :
  fst (renderMarkdown options releases s)
    = LF ++ join (LF ++ LF ++ LF)
              (filter truthy_string
                 (fst (mapM (renderRelease options) releases s)))
  /\ fst (renderMarkdown options [] s) = LF
  /\ (forall r rest,
        let m := fst (renderRelease options r s) in
        let s' := snd (renderRelease options r s) in
        let tail := tl (fst (renderMarkdown options rest s')) in
        fst (renderMarkdown options (r :: rest) s)
          = match m, tail with
            | [], _ => LF ++ tail
            | _ :: _, [] => LF ++ m
            | _ :: _, _ :: _ => LF ++ m ++ (LF ++ LF ++ LF) ++ tail
            end)
  /\ (tl (fst (renderMarkdown options releases s)) = []
      \/ exists rest,
           tl (fst (renderMarkdown options releases s)) = lit "## " ++ rest).
Proof.
  assert (E : forall rs st,
             fst (renderMarkdown options rs st)
             = LF ++ join (LF ++ LF ++ LF)
                       (filter truthy_string
                          (fst (mapM (renderRelease options) rs st)))).
  { intros rs st. unfold renderMarkdown. now rewrite bind_run. }
  split; [apply E|]. split; [reflexivity|]. split.
  - intros r rest m s' tail. subst tail. rewrite !E.
    rewrite mapM_cons. cbn [fst tl LF app filter].
    fold m. fold s'.
    set (l := filter truthy_string (fst (mapM (renderRelease options) rest s'))).
    assert (Hl : forall x, In x l -> x <> []).
    { intros x Hx. apply filter_In in Hx. destruct Hx as [_ Hx].
      destruct x; [discriminate|congruence]. }
    destruct m as [|c m']; cbn [truthy_string].
    + reflexivity.
    + destruct l as [|y l'] eqn:El.
      * reflexivity.
      * match goal with
        | |- context [join ?sep ((c :: m') :: y :: l')] =>
            assert (HJ : join sep (y :: l') <> [])
              by (apply join_nonempty; [congruence|exact Hl]);
            change (join sep ((c :: m') :: y :: l'))
              with ((c :: m') ++ sep ++ join sep (y :: l'));
            destruct (join sep (y :: l')); [congruence|reflexivity]
        end.
  - rewrite E. cbn [LF app tl].
    set (l := fst (mapM (renderRelease options) releases s)).
    assert (Hl : forall x, In x l ->
                 x = [] \/ exists rest, x = lit "## " ++ rest).
    { subst l. clear E. revert s.
      induction releases as [|r rs IH]; intros s x Hx.
      - destruct Hx.
      - rewrite mapM_cons in Hx. cbn [fst] in Hx. destruct Hx as [<-|Hx].
        + apply renderRelease_shape.
        + eapply IH; eauto. }
    induction l as [|x l IH]; [now left|].
    cbn [filter]. destruct (Hl x (or_introl eq_refl)) as [->|[rest ->]].
    + cbn [truthy_string]. apply IH. intros y Hy. apply Hl. now right.
    + cbn [truthy_string lit map list_ascii_of_string app]. right.
      cbn [join]. destruct (filter truthy_string l).
      * eexists. reflexivity.
      * eexists. cbn. reflexivity.
Qed.

(** ** Package groups, rendered *)

Lemma mapM_ext {A B} (f g : A -> M B) (l : list A) :
  (forall x s, In x l -> f x s = g x s) ->
  forall s, mapM f l s = mapM g l s.
Proof.
  induction l as [|x l IH]; intros H s; [reflexivity|].
  rewrite !mapM_cons, (H x s (or_introl eq_refl)).
  rewrite IH; [reflexivity|]. intros y s' Hy. apply H. now right.
Qed.

(** C6: [renderContributionsByPackage] files every commit under the label
    made of its package names, each between backquotes, joined by a comma
    and a space, or under [Other] when it has no package (none, or an
    empty list); the groups are the distinct labels in the order of their
    first occurrence, each holding the commits with that label in input
    order, and each renders as a bullet with the label over the indented
    list of its commits, the groups joined by a line feed.  A category
    one of whose commits has a package is rendered that way.  Commits with
    the packages core; core and utils; and none give the three groups
    `core`, then `core`, `utils`, then Other. *)
Theorem renderContributionsByPackage_groups (options : Options)
  (commits : list CommitInfo) :
  Object_keys (commitsByPackage commits)
    = first_seen (map package_label commits)
  /\ NoDup (Object_keys (commitsByPackage commits))
  /\ (forall k, In k (Object_keys (commitsByPackage commits))
                <-> exists c, In c commits /\ package_label c = k)
  /\ (forall k, group_commits (commitsByPackage commits) k
                = filter (fun c => jstr_eqb (package_label c) k) commits)
  /\ (forall c,
        package_label c
          = match changedPackages c with
            | [] => lit "Other"
            | _ :: _ =>
                join (lit ", ")
                  (map (fun pkg => lit "`" ++ pkg ++ lit "`")
                     (changedPackages c))
            end
        /\ (package_label c = lit "Other"
            <-> packages c = None \/ packages c = Some []))
  /\ (forall s,
        renderContributionsByPackage options commits s
        = (rendered <-
             mapM (fun k =>
                     list <-
                       renderContributionList options
                         (filter (fun c => jstr_eqb (package_label c) k)
                            commits)
                         (lit "  ") ;;
                     ret (lit "* " ++ k ++ LF ++ list))
                  (first_seen (map package_label commits)) ;;
           ret (join LF rendered)) s)
  /\ (forall name rest markdown s,
        hasPackages commits = true ->
        renderCategories options
          ({| category_name := name; category_commits := commits |} :: rest)
          markdown s
        = (body <- renderContributionsByPackage options commits ;;
           renderCategories options rest
             (markdown ++ (LF ++ LF) ++ lit "#### " ++ name ++ LF ++ body)) s)
  /\ (forall c1 c2 c3,
        packages c1 = Some [lit "core"] ->
        packages c2 = Some [lit "core"; lit "utils"] ->
        packages c3 = None ->
        Object_keys (commitsByPackage [c1; c2; c3])
          = [lit "`core`"; lit "`core`, `utils`"; lit "Other"]
        /\ group_commits (commitsByPackage [c1; c2; c3]) (lit "`core`")
           = [c1]
        /\ group_commits (commitsByPackage [c1; c2; c3])
             (lit "`core`, `utils`") = [c2]
        /\ group_commits (commitsByPackage [c1; c2; c3]) (lit "Other")
           = [c3]).
Proof.
  split; [apply Object_keys_commitsByPackage|].
  split; [rewrite Object_keys_commitsByPackage; apply first_seen_NoDup|].
  split.
  { intros k. rewrite Object_keys_commitsByPackage, first_seen_In, in_map_iff.
    split; intros (c & H1 & H2); exists c; tauto. }
  split; [apply group_commits_filter|].
  split.
  { intros c. split.
    - unfold package_label, renderPackageNames.
      now destruct (changedPackages c).
    - unfold package_label. rewrite renderPackageNames_Other.
      unfold changedPackages. destruct (packages c) as [ps|].
      + split; [intros ->; now right|]. intros [H|H]; congruence.
      + split; [now left|reflexivity]. }
  split.
  { intros s. unfold renderContributionsByPackage.
    rewrite Object_keys_commitsByPackage. rewrite !bind_run.
    rewrite (mapM_ext _
               (fun k =>
                  list <-
                    renderContributionList options
                      (filter (fun c => jstr_eqb (package_label c) k) commits)
                      (lit "  ") ;;
                  ret (lit "* " ++ k ++ LF ++ list))); [reflexivity|].
    intros k s0 _.
    fold (group_commits (commitsByPackage commits) k).
    now rewrite group_commits_filter. }
  split.
  { intros name rest markdown s H. cbn [renderCategories category_commits
      category_name]. rewrite H. rewrite !bind_run.
    rewrite <- !app_assoc. reflexivity. }
  intros c1 c2 c3 H1 H2 H3.
  assert (L1 : package_label c1 = lit "`core`").
  { unfold package_label, changedPackages. now rewrite H1. }
  assert (L2 : package_label c2 = lit "`core`, `utils`").
  { unfold package_label, changedPackages. now rewrite H2. }
  assert (L3 : package_label c3 = lit "Other").
  { unfold package_label, changedPackages. now rewrite H3. }
  rewrite Object_keys_commitsByPackage, !group_commits_filter.
  cbn [map filter]. rewrite L1, L2, L3. repeat split.
Qed.

Lemma renderContributionsByPackage_groups_witness :
  Object_keys (commitsByPackage [commit_core; commit_core_utils; commit_bug])
  = [lit "`core`"; lit "`core`, `utils`"; lit "Other"].
Proof.
  apply (renderContributionsByPackage_groups options_example []
           ); reflexivity.
Defined.

(** ** A commit line *)

Lemma truthy_string_iff (x : jstr) : truthy_string x = true <-> x <> [].
Proof. destruct x; cbn; split; congruence. Qed.

Lemma truthy_number_iff (n : N) : truthy_number n = true <-> n <> 0%N.
Proof.
  unfold truthy_number. destruct (N.eqb_spec n 0); cbn; split; congruence.
Qed.

(** C7: a commit without a linked issue renders to nothing, leaves the
    store as it is and is dropped from the bullet list.  A commit with a
    linked issue renders to the title (rewritten if it matches) followed by
    the author link, and this is preceded by the pull-request link exactly
    when the issue's number is set (not zero), it has a pull request and
    the pull request's URL is set (not empty).  The number in the link is
    printed as a Number is: by its decimal numeral when it is below 2^53.
    Every optional field may be absent: the functions are total, and a
    commit with no issue, no categories and no packages renders to an empty
    list. *)
Theorem renderContribution_optional_fields (options : Options)
  (commit : CommitInfo) (s : Store) :
  match githubIssue commit with
  | None =>
      renderContribution options commit s = (None, s)
      /\ (forall before after prefix s',
            renderContributionList options (before ++ commit :: after)
              prefix s'
            = renderContributionList options (before ++ after) prefix s')
      /\ (forall prefix s',
            renderContributionList options [commit] prefix s' = ([], s'))
  | Some l =>
      let issue := s l in
      let line :=
        rewriteTitle options (title issue) ++ lit ". ([@"
          ++ user_login (user issue) ++ lit "]("
          ++ user_html_url (user issue) ++ lit "))" in
      (forall pr,
         number issue <> 0%N -> pull_request issue = Some pr ->
         pr_html_url pr <> [] ->
         fst (renderContribution options commit s)
         = Some (lit "[#" ++ Number_toString (number issue) ++ lit "]("
                   ++ pr_html_url pr ++ lit ") " ++ line))
      /\ (number issue = 0%N \/ pull_request issue = None
          \/ pull_request issue = Some {| pr_html_url := [] |} ->
          fst (renderContribution options commit s) = Some line)
      /\ ((number issue < 2 ^ 53)%N ->
          Number_toString (number issue) = decimal (number issue))
  end.
Proof.
  destruct (githubIssue commit) as [l|] eqn:E.
  - cbn zeta. rewrite (renderContribution_out options commit l s E).
    unfold pr_prefix, author_suffix. split.
    + intros pr Hn Hp Hu. rewrite Hp.
      apply truthy_number_iff in Hn. apply truthy_string_iff in Hu.
      rewrite Hn, Hu. cbn [andb]. now rewrite <- !app_assoc.
    + split; [|apply Number_toString_safe].
      intros [Hn|[Hp|Hp]].
      * rewrite Hn. cbn. now destruct (pull_request (s l)).
      * now rewrite Hp.
      * rewrite Hp. cbn. now rewrite andb_false_r.
  - assert (R : forall s0, renderContribution options commit s0 = (None, s0)).
    { intros s0. now apply renderContribution_none. }
    split; [apply R|]. split.
    + intros before after prefix s'. unfold renderContributionList.
      rewrite !bind_run, !mapM_app, mapM_cons, R. cbn [fst snd ret].
      f_equal. f_equal. f_equal.
      induction (fst (mapM (renderContribution options) before s'))
        as [|[x|] xs IH]; cbn [app filter_Boolean].
      * reflexivity.
      * destruct (truthy_string x); now rewrite IH.
      * exact IH.
    + intros prefix s'. unfold renderContributionList.
      rewrite bind_run, mapM_cons, R. reflexivity.
Qed.

Lemma renderContribution_optional_fields_witness :
  fst (renderContribution options_example commit_bug
         (store_of (issue_titled (lit "Add a flag"))))
  = Some (lit "[#7](https://github.com/o/r/pull/7) Add a flag. ([@bob](https://github.com/bob))").
Proof.
  pose proof (renderContribution_optional_fields options_example commit_bug
                (store_of (issue_titled (lit "Add a flag")))) as H.
  cbn [githubIssue commit_bug] in H. destruct H as [H _].
  apply (H {| pr_html_url := lit "https://github.com/o/r/pull/7" |});
    [discriminate|reflexivity|discriminate].
Defined.

(** ** The frame of a rendering *)

Lemma list_locs_In (cs : list CommitInfo) (l : loc) :
  In l (list_locs cs) -> exists c, In c cs /\ githubIssue c = Some l.
Proof.
  unfold list_locs. rewrite in_flat_map. intros (c & Hc & Hl).
  exists c. split; [exact Hc|]. unfold contribution_locs in Hl.
  destruct (githubIssue c); [|destruct Hl].
  destruct Hl as [->|[]]. reflexivity.
Qed.

Lemma package_locs_In (cs : list CommitInfo) (l : loc) :
  In l (package_locs cs) -> exists c, In c cs /\ githubIssue c = Some l.
Proof.
  unfold package_locs. rewrite in_flat_map. intros (k & _ & Hl).
  apply list_locs_In in Hl. destruct Hl as (c & Hc & Hl).
  rewrite group_commits_filter in Hc. apply filter_In in Hc.
  exists c. tauto.
Qed.

Lemma release_locs_In (options : Options) (r : Release) (l : loc) :
  In l (release_locs options r) ->
  exists c, In c (commits r) /\ githubIssue c = Some l.
Proof.
  unfold release_locs. rewrite in_flat_map. intros (b & Hb & Hl).
  unfold categoriesWithCommits in Hb. apply filter_In in Hb.
  destruct Hb as [Hb _]. unfold groupByCategory in Hb.
  apply in_map_iff in Hb. destruct Hb as (name & <- & _).
  unfold category_locs in Hl. cbn [category_commits] in Hl.
  assert (exists c, In c (filter (has_category name) (commits r))
                    /\ githubIssue c = Some l) as (c & Hc & Hi).
  { destruct (hasPackages _);
      [now apply package_locs_In|now apply list_locs_In]. }
  apply filter_In in Hc. exists c. tauto.
Qed.

Lemma markdown_locs_In (options : Options) (rs : list Release) (l : loc) :
  In l (markdown_locs options rs) ->
  exists r c, In r rs /\ In c (commits r) /\ githubIssue c = Some l.
Proof.
  unfold markdown_locs. rewrite in_flat_map. intros (r & Hr & Hl).
  apply release_locs_In in Hl. destruct Hl as (c & Hc & Hl).
  exists r, c. tauto.
Qed.

(** C8: after [renderMarkdown], the number, the pull request and the user
    of every issue object are what they were, and its title is what the
    renderings of it made of it: each one replaces the title by its
    rewriting (the first match of the fix pattern replaced through the
    closing template, or the title itself when there is none).  An issue
    that no commit of the releases links to is untouched.  Releases,
    commits and contributors are never assigned to: the renderer's only
    assignment is the one to [issue.title]. *)
Theorem renderMarkdown_frame (options : Options) (releases : list Release)
  (s : Store) (l : loc) :
  number (snd (renderMarkdown options releases s) l) = number (s l)
  /\ pull_request (snd (renderMarkdown options releases s) l)
     = pull_request (s l)
  /\ user (snd (renderMarkdown options releases s) l) = user (s l)
  /\ title (snd (renderMarkdown options releases s) l)
     = Nat.iter (count_occ Nat.eq_dec (markdown_locs options releases) l)
         (rewriteTitle options) (title (s l))
  /\ ((forall r c, In r releases -> In c (commits r) ->
                   githubIssue c <> Some l) ->
      snd (renderMarkdown options releases s) l = s l)
  /\ (forall t,
        rewriteTitle options t
        = match COMMIT_FIX_match t with
          | Some mr =>
              m_before mr
                ++ GetSubstitution 3 mr
                     (lit "Closes [#$3](" ++ baseIssueUrl options ++ lit "$3)")
                ++ m_after mr
          | None => t
          end).
Proof.
  rewrite (Touches_renderMarkdown options releases s l). unfold touched.
  cbn [number pull_request user title with_title].
  repeat (split; [reflexivity|]). split.
  - intros H.
    rewrite (proj1 (count_occ_not_In Nat.eq_dec _ _)).
    + cbn. apply with_title_same.
    + intros Hin. apply markdown_locs_In in Hin.
      destruct Hin as (r & c & Hr & Hc & Hl). exact (H r c Hr Hc Hl).
  - intros t. unfold rewriteTitle, COMMIT_FIX_replace, String_replace.
    unfold COMMIT_FIX_match, String_match.
    destruct t as [|c t]; [reflexivity|].
    cbn [truthy_string].
    now destruct (RegExp_exec true COMMIT_FIX_REGEX (c :: t)).
Qed.

Lemma renderMarkdown_frame_witness :
  snd (renderMarkdown options_example [release_example [commit_bug]]
         (store_of (issue_titled (lit "fixes #42")))) 5
  = issue_titled (lit "fixes #42").
Proof.
  apply (renderMarkdown_frame options_example [release_example [commit_bug]]
           (store_of (issue_titled (lit "fixes #42"))) 5).
  intros r c Hr Hc. cbn in Hr. destruct Hr as [<-|[]].
  cbn in Hc. destruct Hc as [<-|[]]. discriminate.
Defined.

(** ** Contributors *)

Lemma jstr_leb_le (a b : jstr) : jstr_leb a b = true <-> jstr_le a b.
Proof.
  revert b. induction a as [|x a IH]; intros b.
  - cbn. split; [constructor|reflexivity].
  - destruct b as [|y b]; cbn.
    + split; [discriminate|inversion 1].
    + destruct (N.ltb_spec x y) as [Hxy|Hxy].
      * split; [intros _; now constructor|reflexivity].
      * destruct (N.ltb_spec y x) as [Hyx|Hyx].
        -- split; [discriminate|]. inversion 1; subst; lia.
        -- assert (x = y) by lia. subst y. rewrite IH. split.
           ++ now constructor.
           ++ inversion 1; subst; [lia|assumption].
Qed.

Lemma jstr_le_total (a b : jstr) : jstr_le a b \/ jstr_le b a.
Proof.
  revert b. induction a as [|x a IH]; intros b.
  - left. constructor.
  - destruct b as [|y b].
    + right. constructor.
    + destruct (N.lt_trichotomy x y) as [H|[H|H]].
      * left. now constructor.
      * subst y. destruct (IH b); [left|right]; now constructor.
      * right. now constructor.
Qed.

Lemma jstr_le_trans (a b c : jstr) : jstr_le a b -> jstr_le b c -> jstr_le a c.
Proof.
  intros H. revert c. induction H; intros c Hc.
  - constructor.
  - inversion Hc; subst.
    + constructor. lia.
    + now constructor.
  - inversion Hc; subst.
    + now constructor.
    + constructor 3. now apply IHjstr_le.
Qed.

Lemma jstr_le_antisym (a b : jstr) : jstr_le a b -> jstr_le b a -> a = b.
Proof.
  intros H. induction H; intros H'.
  - now inversion H'.
  - inversion H'; subst; lia.
  - inversion H'; subst; [lia|]. f_equal. now apply IHjstr_le.
Qed.

Lemma sort_insert_perm (x : jstr) (l : list jstr) :
  Permutation (sort_insert x l) (x :: l).
Proof.
  induction l as [|y l IH]; cbn; [reflexivity|].
  destruct (jstr_leb x y); [reflexivity|].
  rewrite IH. apply perm_swap.
Qed.

Lemma Array_sort_perm (l : list jstr) : Permutation (Array_sort l) l.
Proof.
  induction l as [|x l IH]; cbn; [constructor|].
  rewrite sort_insert_perm. now constructor.
Qed.

Lemma sort_insert_sorted (x : jstr) (l : list jstr) :
  StronglySorted jstr_le l -> StronglySorted jstr_le (sort_insert x l).
Proof.
  induction 1 as [|y l Hs IH Hy]; cbn.
  - repeat constructor.
  - destruct (jstr_leb x y) eqn:E.
    + apply jstr_leb_le in E. constructor; [now constructor|].
      constructor; [exact E|]. eapply Forall_impl; [|exact Hy].
      intros z Hz. eapply jstr_le_trans; eauto.
    + assert (jstr_le y x) as Hyx.
      { destruct (jstr_le_total x y) as [H|H]; [|exact H].
        apply jstr_leb_le in H. congruence. }
      constructor; [exact IH|].
      apply (Permutation_Forall (Permutation_sym (sort_insert_perm x l))).
      now constructor.
Qed.

Lemma Array_sort_sorted (l : list jstr) : StronglySorted jstr_le (Array_sort l).
Proof.
  induction l as [|x l IH]; cbn; [constructor|].
  now apply sort_insert_sorted.
Qed.

(** A list of strings has one sorted rearrangement only, so [Array_sort]
    is the result of any sorting algorithm. *)
Lemma sorted_rearrangement_unique (l1 l2 : list jstr) :
  StronglySorted jstr_le l1 -> StronglySorted jstr_le l2 ->
  Permutation l1 l2 -> l1 = l2.
Proof.
  intros H1. revert l2. induction H1 as [|x l1 Hs1 IH Hx]; intros l2 H2 HP.
  - apply Permutation_nil in HP. now subst.
  - destruct H2 as [|y l2 Hs2 Hy].
    + apply Permutation_sym, Permutation_nil in HP. discriminate.
    + assert (x = y) as ->.
      { assert (Hxin : In x (y :: l2))
          by (apply (Permutation_in _ HP); now left).
        assert (Hyin : In y (x :: l1))
          by (apply (Permutation_in _ (Permutation_sym HP)); now left).
        destruct Hxin as [->|Hxin]; [reflexivity|].
        destruct Hyin as [->|Hyin]; [reflexivity|].
        rewrite Forall_forall in Hx, Hy.
        apply jstr_le_antisym; auto. }
      f_equal. apply IH; [exact Hs2|].
      now apply Permutation_cons_inv in HP.
Qed.

(** C9: [renderContributorList] returns the heading with the length of the
    list it was given, a line feed, and the bullets joined by line feeds;
    there are as many bullets as contributors; the bullets are the
    contributors' lines, each after the marker "- ", rearranged into
    ascending lexicographic order of the whole line by code units, the
    only such rearrangement; a line
    is the display name followed by the link between parentheses when the
    name is set (present and not empty), the link alone otherwise.  The
    order is that of the lines, not of the names: the line of a nameless
    "zed" sorts before the line of "bob" (login "al"), because it starts
    with an opening bracket. *)
Theorem renderContributorList_sorted (contributors : list GitHubUserResponse) :
  renderContributorList contributors
    = lit "#### Committers: "
        ++ Number_toString (N.of_nat (List.length contributors)) ++ LF
        ++ join LF
             (Array_sort
                (map (fun c => lit "- " ++ renderContributor c) contributors))
  /\ List.length
       (Array_sort
          (map (fun c => lit "- " ++ renderContributor c) contributors))
     = List.length contributors
  /\ Permutation
       (Array_sort
          (map (fun c => lit "- " ++ renderContributor c) contributors))
       (map (fun c => lit "- " ++ renderContributor c) contributors)
  /\ StronglySorted jstr_le
       (Array_sort
          (map (fun c => lit "- " ++ renderContributor c) contributors))
  /\ (forall bullets,
        Permutation bullets
          (map (fun c => lit "- " ++ renderContributor c) contributors) ->
        StronglySorted jstr_le bullets ->
        bullets
        = Array_sort
            (map (fun c => lit "- " ++ renderContributor c) contributors))
  /\ (forall c n,
        name c = Some n -> n <> [] ->
        renderContributor c
        = n ++ lit " ([" ++ login c ++ lit "](" ++ html_url c ++ lit "))")
  /\ (forall c,
        name c = None \/ name c = Some [] ->
        renderContributor c
        = lit "[" ++ login c ++ lit "](" ++ html_url c ++ lit ")")
  /\ renderContributorList [contributor_example_1; contributor_example_2]
     = lit "#### Committers: 2" ++ LF ++ lit "- [zed](u2)" ++ LF
         ++ lit "- bob ([al](u1))".
Proof.
  split; [reflexivity|]. split.
  { rewrite (Permutation_length (Array_sort_perm _)). apply length_map. }
  split; [apply Array_sort_perm|]. split; [apply Array_sort_sorted|].
  split.
  { intros bullets HP HS.
    apply sorted_rearrangement_unique;
      [exact HS|apply Array_sort_sorted|].
    eapply perm_trans; [exact HP|]. apply Permutation_sym, Array_sort_perm. }
  split.
  { intros c n Hn Hne. unfold renderContributor. rewrite Hn.
    apply truthy_string_iff in Hne. rewrite Hne.
    now rewrite <- !app_assoc. }
  split.
  { intros c [Hn|Hn]; unfold renderContributor; now rewrite Hn. }
  reflexivity.
Qed.

Lemma renderContributorList_sorted_witness :
  renderContributor contributor_example_1 = lit "bob ([al](u1))".
Proof.
  destruct (renderContributorList_sorted
              [contributor_example_1; contributor_example_2])
    as (_ & _ & _ & _ & _ & H & _).
  apply (H contributor_example_1 (lit "bob")); [reflexivity|discriminate].
Defined.

(** ** The contributor section of a release *)

Lemma renderRelease_contributors options release cs s :
  categoriesWithCommits options release <> [] ->
  renderRelease options (with_contributors release (Some cs)) s
  = (fst (renderRelease options (with_contributors release None) s)
       ++ (LF ++ LF) ++ renderContributorList cs,
     snd (renderRelease options (with_contributors release None) s)).
Proof.
  intros H. unfold renderRelease.
  cbn [commits with_contributors contributors release_name date].
  fold (categoriesWithCommits options release).
  destruct (categoriesWithCommits options release) as [|c cats];
    [congruence|].
  cbn [List.length Nat.eqb]. rewrite !bind_run. reflexivity.
Qed.

(** C10: when a release has a commit in a configured category, so that it
    renders to something, an empty contributor list still adds the section:
    the rendering is the one without contributors followed by two line
    feeds, the heading "#### Committers: 0" and a line feed, with no
    bullet.  Any contributor list that is present adds the section; only
    an absent one adds nothing. *)
Theorem renderRelease_empty_contributors (options : Options)
  (release : Release) (s : Store) :
  fst (renderRelease options (with_contributors release (Some [])) s) <> [] ->
  renderRelease options (with_contributors release (Some [])) s
    = (fst (renderRelease options (with_contributors release None) s)
         ++ LF ++ LF ++ lit "#### Committers: 0" ++ LF,
       snd (renderRelease options (with_contributors release None) s))
  /\ (forall cs,
        renderRelease options (with_contributors release (Some cs)) s
        = (fst (renderRelease options (with_contributors release None) s)
             ++ LF ++ LF ++ lit "#### Committers: "
             ++ Number_toString (N.of_nat (List.length cs)) ++ LF
             ++ join LF
                  (Array_sort
                     (map (fun c => lit "- " ++ renderContributor c) cs)),
           snd (renderRelease options (with_contributors release None) s)))
  /\ renderRelease options (with_contributors release None) s
     = renderCategories options (categoriesWithCommits options release)
         (lit "## "
            ++ (if jstr_eqb (release_name release) UNRELEASED_TAG
                then lit "Unreleased" else release_name release)
            ++ lit " (" ++ date release ++ lit ")") s.
Proof.
  intros H.
  assert (Hc : categoriesWithCommits options release <> []).
  { intros E. apply H.
    rewrite renderRelease_empty; [reflexivity|exact E]. }
  split; [|split].
  - rewrite (renderRelease_contributors options release [] s Hc).
    reflexivity.
  - intros cs. rewrite (renderRelease_contributors options release cs s Hc).
    unfold renderContributorList. now rewrite <- !app_assoc.
  - unfold renderRelease.
    cbn [commits with_contributors contributors release_name date].
    fold (categoriesWithCommits options release).
    destruct (categoriesWithCommits options release) as [|c cats];
      [congruence|].
    cbn [List.length Nat.eqb]. rewrite bind_run.
    now destruct (renderCategories _ _ _ _).
Qed.

(** ** The language of a pattern, and the matcher *)

Lemma consumed_app (w s' : jstr) : consumed (w ++ s') s' = w.
Proof.
  unfold consumed. rewrite length_app.
  replace (List.length w + List.length s' - List.length s')
    with (List.length w) by lia.
  rewrite firstn_app, Nat.sub_diag, firstn_all. cbn. apply app_nil_r.
Qed.

Section MatcherCorrect.
Variable ic : bool.
Variable R : Type.

Lemma star_atom_sound a s caps (k : cont R) x :
  star_atom ic R a s caps k = Some x ->
  exists w s',
    s = w ++ s' /\ Forall (fun c => atom_matches ic a c = true) w
    /\ k s' caps = Some x.
Proof.
  revert x. induction s as [|c s IH]; intros x; cbn.
  - intros H. exists [], []. auto.
  - destruct (atom_matches ic a c) eqn:E.
    + destruct (star_atom ic R a s caps k) as [y|] eqn:Es.
      * intros Hx. inversion Hx; subst y.
        destruct (IH x eq_refl) as (w & s' & -> & Hw & Hk).
        exists (c :: w), s'. auto.
      * intros H. exists [], (c :: s). auto.
    + intros H. exists [], (c :: s). auto.
Qed.

Lemma matcher_sound r : forall s caps (k : cont R) x,
  matcher ic R r s caps k = Some x ->
  exists w s' caps', s = w ++ s' /\ Sem ic r w /\ k s' caps' = Some x.
Proof.
  induction r as [a|r1 IH1 r2 IH2|r1 IH1 r2 IH2|r1 IH1|a|n r1 IH1];
    intros s caps k x; cbn [matcher].
  - destruct s as [|c s]; [discriminate|].
    destruct (atom_matches ic a c) eqn:E; [|discriminate].
    intros H. exists [c], s, caps. repeat split; auto. now constructor.
  - intros H. apply IH1 in H. destruct H as (w1 & s1 & c1 & -> & S1 & H).
    apply IH2 in H. destruct H as (w2 & s2 & c2 & -> & S2 & H).
    exists (w1 ++ w2), s2, c2. rewrite <- app_assoc.
    repeat split; auto. now constructor.
  - destruct (matcher ic R r1 s caps k) as [y|] eqn:E.
    + intros Hx. inversion Hx; subst y. apply IH1 in E.
      destruct E as (w & s' & c' & -> & S1 & H).
      exists w, s', c'. repeat split; auto. now apply Sem_AltL.
    + intros H. apply IH2 in H.
      destruct H as (w & s' & c' & -> & S2 & H).
      exists w, s', c'. repeat split; auto. now apply Sem_AltR.
  - destruct (matcher ic R r1 s caps k) as [y|] eqn:E.
    + intros Hx. inversion Hx; subst y. apply IH1 in E.
      destruct E as (w & s' & c' & -> & S1 & H).
      exists w, s', c'. repeat split; auto. now apply Sem_OptSome.
    + intros H. exists [], s, caps. repeat split; auto. apply Sem_OptNone.
  - destruct s as [|c s]; [discriminate|].
    destruct (atom_matches ic a c) eqn:E; [|discriminate].
    intros H. apply star_atom_sound in H.
    destruct H as (w & s' & -> & Hw & H).
    exists (c :: w), s', caps. repeat split; auto.
    constructor; [discriminate|]. now constructor.
  - intros H. apply IH1 in H. destruct H as (w & s' & c' & -> & S1 & H).
    eexists w, s', _. repeat split; eauto. now constructor.
Qed.

Lemma star_atom_complete a w s' caps (k : cont R) :
  Forall (fun c => atom_matches ic a c = true) w ->
  k s' caps <> None ->
  star_atom ic R a (w ++ s') caps k <> None.
Proof.
  intros Hw Hk. induction Hw as [|c w Hc Hw IH]; cbn [app].
  - destruct s' as [|c s']; cbn; [exact Hk|].
    destruct (atom_matches ic a c); [|exact Hk].
    destruct (star_atom ic R a s' caps k); [discriminate|exact Hk].
  - cbn. rewrite Hc.
    destruct (star_atom ic R a (w ++ s') caps k); [discriminate|].
    contradiction.
Qed.

Lemma matcher_complete r w :
  Sem ic r w ->
  forall s' caps (k : cont R),
    (forall caps', k s' caps' <> None) ->
    matcher ic R r (w ++ s') caps k <> None.
Proof.
  induction 1 as [a c Hc|r1 r2 w1 w2 S1 IH1 S2 IH2|r1 r2 w S1 IH1
                 |r1 r2 w S2 IH2|r w S1 IH1|r|a w Hne Hw|n r w S1 IH1];
    intros s' caps k Hk; cbn [matcher].
  - cbn. rewrite Hc. apply Hk.
  - rewrite <- app_assoc. apply IH1. intros caps'. now apply IH2.
  - specialize (IH1 s' caps k Hk).
    now destruct (matcher ic R r1 (w ++ s') caps k).
  - specialize (IH2 s' caps k Hk).
    now destruct (matcher ic R r1 (w ++ s') caps k).
  - specialize (IH1 s' caps k Hk).
    now destruct (matcher ic R r (w ++ s') caps k).
  - cbn. destruct (matcher ic R r s' caps k); [discriminate|apply Hk].
  - destruct w as [|c w]; [congruence|]. inversion Hw; subst.
    cbn. rewrite H1. apply star_atom_complete; auto.
  - apply IH1. intros caps'. apply Hk.
Qed.

Lemma star_atom_greedy a s caps (k : cont R) :
  (forall s' caps', k s' caps' <> None) ->
  star_atom ic R a s caps k = k (drop_run ic a s) caps.
Proof.
  intros Hk. induction s as [|c s IH]; cbn; [reflexivity|].
  destruct (atom_matches ic a c); [|reflexivity].
  rewrite IH. destruct (k (drop_run ic a s) caps) eqn:E; [reflexivity|].
  now apply Hk in E.
Qed.

Lemma drop_run_split a s :
  exists w,
    s = w ++ drop_run ic a s
    /\ Forall (fun c => atom_matches ic a c = true) w
    /\ match drop_run ic a s with
       | c :: _ => atom_matches ic a c = false
       | [] => True
       end.
Proof.
  induction s as [|c s (w & E & Hw & Hd)]; cbn.
  - exists []. auto.
  - destruct (atom_matches ic a c) eqn:Ec.
    + exists (c :: w). repeat split; auto. cbn. now f_equal.
    + exists []. repeat split; auto.
Qed.
End MatcherCorrect.


Lemma matcher_Seq ic R r1 r2 s caps (k : cont R) :
  matcher ic R (Seq r1 r2) s caps k
  = matcher ic R r1 s caps (fun s1 caps1 => matcher ic R r2 s1 caps1 k).
Proof. reflexivity. Qed.

Lemma match_here_sound ic r before s mr :
  match_here ic r before s = Some mr ->
  m_before mr = before /\ s = m_matched mr ++ m_after mr
  /\ Sem ic r (m_matched mr).
Proof.
  unfold match_here. intros H. apply matcher_sound in H.
  destruct H as (w & s' & caps' & -> & Hw & H).
  inversion H; subst mr; cbn. rewrite consumed_app. auto.
Qed.

Lemma match_here_complete ic r before w s' :
  Sem ic r w -> match_here ic r before (w ++ s') <> None.
Proof.
  intros H. unfold match_here. apply matcher_complete; [exact H|].
  discriminate.
Qed.

Lemma exec_from_Some ic r rb s mr :
  exec_from ic r rb s = Some mr ->
  exists p q,
    s = p ++ q /\ match_here ic r (rev rb ++ p) q = Some mr
    /\ (forall p' q', s = p' ++ q' -> List.length p' < List.length p ->
                      match_here ic r (rev rb ++ p') q' = None).
Proof.
  revert rb. induction s as [|c s IH]; intros rb; cbn [exec_from].
  - destruct (match_here ic r (rev rb) []) eqn:E; [|discriminate].
    intros H; inversion H; subst. exists [], [].
    rewrite (app_nil_r (rev rb)). split; [reflexivity|]. split; [exact E|].
    intros p' q' _ Hlen. cbn in Hlen. lia.
  - destruct (match_here ic r (rev rb) (c :: s)) eqn:E.
    + intros H; inversion H; subst. exists [], (c :: s).
      rewrite (app_nil_r (rev rb)). split; [reflexivity|]. split; [exact E|].
      intros p' q' _ Hlen. cbn in Hlen. lia.
    + intros H. apply IH in H. destruct H as (p & q & -> & Hm & Hl).
      exists (c :: p), q. cbn [rev] in Hm. rewrite <- app_assoc in Hm.
      repeat split; auto.
      intros p' q' Hs Hlen. destruct p' as [|c' p'].
      * cbn in Hs. subst q'. now rewrite app_nil_r.
      * cbn in Hs. injection Hs as Hc Hs'. subst c'.
        specialize (Hl p' q' Hs'). cbn [rev] in Hl.
        rewrite <- app_assoc in Hl. apply Hl. cbn in Hlen. lia.
Qed.

Lemma exec_from_None ic r rb s :
  exec_from ic r rb s = None ->
  forall p q, s = p ++ q -> match_here ic r (rev rb ++ p) q = None.
Proof.
  revert rb. induction s as [|c s IH]; intros rb; cbn [exec_from].
  - destruct (match_here ic r (rev rb) []) eqn:E; [discriminate|].
    intros _ p q Hs. symmetry in Hs. apply app_eq_nil in Hs.
    destruct Hs as [-> ->]. now rewrite app_nil_r.
  - destruct (match_here ic r (rev rb) (c :: s)) eqn:E; [discriminate|].
    intros H p q Hs. destruct p as [|c' p].
    + cbn in Hs. subst q. now rewrite app_nil_r.
    + cbn in Hs. injection Hs as Hc Hs'. subst c'.
      specialize (IH _ H p q Hs'). cbn [rev] in IH.
      now rewrite <- app_assoc in IH.
Qed.

(** [RegExp_exec] finds the leftmost match, and finds one whenever some
    substring is in the language of the pattern. *)
Lemma RegExp_exec_Some ic r s mr :
  RegExp_exec ic r s = Some mr ->
  s = m_before mr ++ m_matched mr ++ m_after mr
  /\ Sem ic r (m_matched mr)
  /\ match_here ic r (m_before mr) (m_matched mr ++ m_after mr) = Some mr
  /\ (forall b w a, s = b ++ w ++ a -> Sem ic r w ->
                    List.length (m_before mr) <= List.length b).
Proof.
  unfold RegExp_exec. intros H. apply exec_from_Some in H.
  destruct H as (p & q & -> & Hm & Hl). cbn [rev app] in Hm, Hl.
  destruct (match_here_sound _ _ _ _ _ Hm) as (Hb & Hq & Hs).
  rewrite Hb, <- Hq. repeat split; auto.
  intros b w a Hs' Hw.
  destruct (Nat.le_gt_cases (List.length p) (List.length b)) as [|Hlt];
    [assumption|].
  exfalso. apply (match_here_complete ic r b w a Hw).
  now apply Hl.
Qed.

Lemma RegExp_exec_complete ic r b w a :
  Sem ic r w -> RegExp_exec ic r (b ++ w ++ a) <> None.
Proof.
  intros Hw H. unfold RegExp_exec in H.
  apply (match_here_complete ic r ([] ++ b) w a Hw).
  exact (exec_from_None _ _ _ _ H b (w ++ a) eq_refl).
Qed.

(** *** The language of the fix pattern, spelled out *)

Lemma Sem_Seq_iff ic r1 r2 w :
  Sem ic (Seq r1 r2) w
  <-> exists w1 w2, w = w1 ++ w2 /\ Sem ic r1 w1 /\ Sem ic r2 w2.
Proof.
  split.
  - inversion 1; subst. eauto.
  - intros (w1 & w2 & -> & H1 & H2). now constructor.
Qed.

Lemma Sem_Alt_iff ic r1 r2 w :
  Sem ic (Alt r1 r2) w <-> Sem ic r1 w \/ Sem ic r2 w.
Proof.
  split.
  - inversion 1; subst; auto.
  - intros [H|H]; [now apply Sem_AltL|now apply Sem_AltR].
Qed.

Lemma Sem_Opt_iff ic r w : Sem ic (Opt r) w <-> w = [] \/ Sem ic r w.
Proof.
  split.
  - inversion 1; subst; auto.
  - intros [->|H]; [apply Sem_OptNone|now apply Sem_OptSome].
Qed.

Lemma Sem_Group_iff ic n r w : Sem ic (Group n r) w <-> Sem ic r w.
Proof.
  split.
  - inversion 1; subst; auto.
  - now constructor.
Qed.

Lemma Sem_Atom_iff ic a w :
  Sem ic (Atom a) w <-> exists c, w = [c] /\ atom_matches ic a c = true.
Proof.
  split.
  - inversion 1; subst; eauto.
  - intros (c & -> & H). now constructor.
Qed.

Lemma Sem_Plus_iff ic a w :
  Sem ic (PlusA a) w
  <-> w <> [] /\ Forall (fun c => atom_matches ic a c = true) w.
Proof.
  split.
  - inversion 1; subst; auto.
  - intros [H1 H2]. now constructor.
Qed.

Lemma Sem_word (p w : jstr) :
  p <> [] ->
  (Sem true (word p) w <-> map Canonicalize w = map Canonicalize p).
Proof.
  revert w. induction p as [|c p IH]; intros w Hp; [congruence|].
  destruct p as [|c' p'].
  - cbn [word map]. rewrite Sem_Atom_iff. cbn [atom_matches]. split.
    + intros (x & -> & H). apply N.eqb_eq in H. cbn. now rewrite H.
    + intros H. destruct w as [|x [|y w]]; try discriminate.
      cbn in H. injection H as H. exists x. split; [reflexivity|].
      apply N.eqb_eq. now symmetry.
  - change (word (c :: c' :: p')) with (Seq (Atom (Chr c)) (word (c' :: p'))).
    rewrite Sem_Seq_iff. split.
    + intros (w1 & w2 & -> & H1 & H2).
      apply Sem_Atom_iff in H1. destruct H1 as (x & -> & H1).
      apply IH in H2; [|discriminate]. cbn [atom_matches] in H1.
      apply N.eqb_eq in H1. cbn [app map]. rewrite H2, H1. reflexivity.
    + intros H. destruct w as [|x w]; [discriminate|].
      cbn [map] in H. injection H as Hx Hw.
      exists [x], w. split; [reflexivity|]. split.
      * apply Sem_Atom_iff. exists x. split; [reflexivity|].
        cbn [atom_matches]. apply N.eqb_eq. now symmetry.
      * apply IH; [discriminate|exact Hw].
Qed.

Lemma fix_verb_iff (w : jstr) :
  Sem true
    (Group 1 (Alt (word (lit "fix"))
                  (Alt (word (lit "close")) (word (lit "resolve"))))) w
  <-> fix_verb w.
Proof.
  rewrite Sem_Group_iff, !Sem_Alt_iff, !Sem_word by discriminate.
  reflexivity.
Qed.

Lemma fix_ending_iff (w : jstr) :
  Sem true
    (Opt (Group 2 (Alt (Seq (Opt (Atom (Chr (chr "e")))) (Atom (Chr (chr "s"))))
                       (Seq (Opt (Atom (Chr (chr "e")))) (Atom (Chr (chr "d"))))))) w
  <-> fix_ending w.
Proof.
  rewrite Sem_Opt_iff, Sem_Group_iff, Sem_Alt_iff, !Sem_Seq_iff.
  unfold fix_ending, folds_to. split.
  - intros [->|[(w1 & w2 & -> & H1 & H2)|(w1 & w2 & -> & H1 & H2)]];
      [now left| |];
      apply Sem_Opt_iff in H1; apply Sem_Atom_iff in H2;
      destruct H2 as (y & -> & Hy); cbn [atom_matches] in Hy;
      apply N.eqb_eq in Hy;
      (destruct H1 as [->|H1];
       [|apply Sem_Atom_iff in H1; destruct H1 as (x & -> & Hx);
         cbn [atom_matches] in Hx; apply N.eqb_eq in Hx]);
      cbn [app map]; rewrite <- ?Hx, <- Hy; cbn; tauto.
  - assert (A : forall p x, Canonicalize p = Canonicalize x ->
                            Sem true (Atom (Chr p)) [x]).
    { intros p x H. constructor. cbn. now apply N.eqb_eq. }
    intros [->|[H|[H|[H|H]]]]; [now left| | | |];
      destruct w as [|x [|y [|z w]]]; try discriminate;
      cbn in H; injection H as H; subst.
    + right. left. exists [], [x]. repeat split.
      * apply Sem_OptNone.
      * apply A. now rewrite H.
    + right. left. exists [x], [y]. repeat split.
      * apply Sem_OptSome, A. now rewrite H.
      * apply A. now rewrite H0.
    + right. right. exists [], [x]. repeat split.
      * apply Sem_OptNone.
      * apply A. now rewrite H.
    + right. right. exists [x], [y]. repeat split.
      * apply Sem_OptSome, A. now rewrite H.
      * apply A. now rewrite H0.
Qed.

Lemma Canonicalize_eq_upper (c u : N) :
  (65 <= u <= 90)%N -> (Canonicalize c = u <-> c = u \/ c = (u + 32)%N).
Proof.
  intros Hu. unfold Canonicalize.
  destruct ((97 <=? c) && (c <=? 122))%N eqn:E.
  - apply andb_true_iff in E. destruct E as [E1 E2].
    apply N.leb_le in E1, E2. lia.
  - apply andb_false_iff in E.
    destruct E as [E|E]; apply N.leb_gt in E; lia.
Qed.

Lemma Canonicalize_eq_other (c u : N) :
  (u < 65)%N -> (Canonicalize c = u <-> c = u).
Proof.
  intros Hu. unfold Canonicalize.
  destruct ((97 <=? c) && (c <=? 122))%N eqn:E.
  - apply andb_true_iff in E. destruct E as [E1 E2].
    apply N.leb_le in E1, E2. lia.
  - tauto.
Qed.

Lemma fix_space_iff (w : jstr) :
  Sem true (Atom (Chr (chr " "))) w <-> w = [chr " "].
Proof.
  rewrite Sem_Atom_iff. cbn [atom_matches]. split.
  - intros (c & -> & H). apply N.eqb_eq in H. symmetry in H.
    change (Canonicalize (chr " ")) with 32%N in H.
    apply (Canonicalize_eq_other c 32) in H; [|reflexivity].
    rewrite H. reflexivity.
  - intros ->. exists (chr " "). split; reflexivity.
Qed.

Lemma fix_marker_iff (w : jstr) :
  Sem true (Atom (OneOf [chr "T"; chr "#"])) w
  <-> exists c, w = [c] /\ fix_marker c.
Proof.
  rewrite Sem_Atom_iff. unfold fix_marker. cbn [atom_matches existsb].
  split; intros (c & -> & H); exists c; (split; [reflexivity|]).
  - rewrite orb_false_r in H. apply orb_true_iff in H.
    destruct H as [H|H]; apply N.eqb_eq in H; symmetry in H.
    + change (Canonicalize (chr "T")) with 84%N in H.
      apply (Canonicalize_eq_upper c 84) in H; [|lia].
      destruct H as [->| ->]; auto.
    + change (Canonicalize (chr "#")) with 35%N in H.
      apply (Canonicalize_eq_other c 35) in H; [|reflexivity]. auto.
  - destruct H as [->|[->| ->]]; reflexivity.
Qed.

Lemma fix_digits_iff (n : jstr) :
  Sem true (Group 3 (PlusA Digit)) n <-> digits n.
Proof. rewrite Sem_Group_iff, Sem_Plus_iff. reflexivity. Qed.

(** The words of the pattern are the issue references. *)
Lemma Matches_iff (w : jstr) : Matches w <-> exists n, fix_reference w n.
Proof.
  unfold Matches, COMMIT_FIX_REGEX, fix_reference.
  rewrite Sem_Seq_iff. split.
  - intros (w1 & v1 & -> & H1 & H).
    apply Sem_Seq_iff in H. destruct H as (w2 & v2 & -> & H2 & H).
    apply Sem_Seq_iff in H. destruct H as (w3 & v3 & -> & H3 & H).
    apply Sem_Seq_iff in H. destruct H as (w4 & n & -> & H4 & H5).
    apply fix_verb_iff in H1. apply fix_ending_iff in H2.
    apply fix_space_iff in H3. apply fix_marker_iff in H4.
    apply fix_digits_iff in H5. subst w3. destruct H4 as (c & -> & H4).
    exists n, w1, w2, c. auto.
  - intros (n & verb & ending & marker & -> & Hv & He & Hm & Hd).
    exists verb, (ending ++ chr " " :: marker :: n).
    split; [reflexivity|]. split; [now apply fix_verb_iff|].
    apply Sem_Seq_iff. exists ending, (chr " " :: marker :: n).
    split; [reflexivity|]. split; [now apply fix_ending_iff|].
    apply (Sem_Seq true _ _ [chr " "] (marker :: n));
      [now apply fix_space_iff|].
    apply (Sem_Seq true _ _ [marker] n).
    + apply fix_marker_iff. now exists marker.
    + now apply fix_digits_iff.
Qed.

(** At the position where the fix pattern matches, the match is an issue
    reference with the longest run of digits after the marker, and the
    third capture is that run. *)
Lemma COMMIT_FIX_here before s mr :
  match_here true COMMIT_FIX_REGEX before s = Some mr ->
  exists n,
    fix_reference (m_matched mr) n
    /\ match m_after mr with
       | c :: _ => is_digit c = false
       | [] => True
       end
    /\ m_captures mr 3 = Some n.
Proof.
  unfold match_here, COMMIT_FIX_REGEX. intros H.
  rewrite matcher_Seq in H. apply matcher_sound in H.
  destruct H as (w1 & s1 & c1 & -> & S1 & H). cbv beta in H.
  rewrite matcher_Seq in H. apply matcher_sound in H.
  destruct H as (w2 & s2 & c2 & -> & S2 & H). cbv beta in H.
  rewrite matcher_Seq in H. apply matcher_sound in H.
  destruct H as (w3 & s3 & c3 & -> & S3 & H). cbv beta in H.
  rewrite matcher_Seq in H. apply matcher_sound in H.
  destruct H as (w4 & s4 & c4 & -> & S4 & H). cbv beta in H.
  cbn [matcher] in H. destruct s4 as [|d s4]; [discriminate|].
  destruct (atom_matches true Digit d) eqn:Ed; [|discriminate].
  rewrite star_atom_greedy in H by discriminate.
  destruct (drop_run_split true Digit s4) as (n & Es & Hn & Hd).
  inversion H; subst mr; clear H.
  cbn [m_matched m_after m_captures m_before].
  apply fix_verb_iff in S1. apply fix_ending_iff in S2.
  apply fix_space_iff in S3. apply fix_marker_iff in S4.
  subst w3. destruct S4 as (c & -> & S4).
  exists (d :: n).
  assert (E1 : d :: s4 = (d :: n) ++ drop_run true Digit s4).
  { cbn. now f_equal. }
  split; [|split].
  - exists w1, w2, c. split.
    + rewrite E1 at 1.
      replace (w1 ++ w2 ++ [chr " "] ++ [c] ++ (d :: n)
                 ++ drop_run true Digit s4)
        with ((w1 ++ w2 ++ chr " " :: c :: d :: n)
                ++ drop_run true Digit s4)
        by (now rewrite <- !app_assoc).
      apply consumed_app.
    + repeat split; auto. discriminate.
  - exact Hd.
  - unfold set_capture. cbn [Nat.eqb]. f_equal. rewrite E1 at 1.
    apply consumed_app.
Qed.

(** The template of the rewrite, when the base URL has no dollar sign. *)
Lemma GetSubstitution_plain m mr x rest :
  Forall (fun c => c <> 36%N) x ->
  GetSubstitution m mr (x ++ rest) = x ++ GetSubstitution m mr rest.
Proof.
  induction 1 as [|c x Hc Hx IH]; [reflexivity|].
  cbn [app GetSubstitution].
  destruct (N.eqb_spec c 36); [contradiction|]. cbn [negb].
  now rewrite IH.
Qed.

Lemma closes_template_subst options mr :
  Forall (fun c => c <> 36%N) (baseIssueUrl options) ->
  GetSubstitution COMMIT_FIX_GROUPS mr (closes_template options)
  = lit "Closes [#" ++ capture_text (m_captures mr) 3 ++ lit "]("
      ++ baseIssueUrl options ++ capture_text (m_captures mr) 3 ++ lit ")".
Proof.
  intros Hb. unfold closes_template.
  change (lit "Closes [#$3](")
    with (lit "Closes [#" ++ [36%N; 51%N] ++ lit "](").
  rewrite <- !app_assoc.
  rewrite GetSubstitution_plain by (repeat constructor; discriminate).
  f_equal.
  change (GetSubstitution COMMIT_FIX_GROUPS mr
            ([36%N; 51%N] ++ lit "](" ++ baseIssueUrl options ++ lit "$3)"))
    with (capture_text (m_captures mr) 3
            ++ GetSubstitution COMMIT_FIX_GROUPS mr
                 (lit "](" ++ baseIssueUrl options ++ lit "$3)")).
  f_equal.
  rewrite GetSubstitution_plain by (repeat constructor; discriminate).
  f_equal.
  rewrite GetSubstitution_plain by exact Hb.
  reflexivity.
Qed.


(** *** A rewritten title *)

Lemma folds_letters (v p : jstr) :
  map Canonicalize v = p ->
  Forall (fun u => (65 <= u <= 90)%N) p ->
  Forall (fun c => is_letter c = true) v.
Proof.
  intros <-. induction v as [|c v IH]; cbn; intros H; [constructor|].
  inversion H as [|? ? Hc Hv]; subst. constructor; [|now apply IH].
  unfold Canonicalize in Hc. unfold is_letter.
  destruct ((97 <=? c) && (c <=? 122))%N eqn:E.
  - now rewrite orb_true_r.
  - rewrite orb_false_r. apply andb_true_iff. split; apply N.leb_le; lia.
Qed.

Lemma fix_verb_letters v :
  fix_verb v -> Forall (fun c => is_letter c = true) v.
Proof.
  intros [H|[H|H]]; apply (folds_letters _ _ H);
    repeat constructor; cbn; lia.
Qed.

Lemma fix_ending_letters v :
  fix_ending v -> Forall (fun c => is_letter c = true) v.
Proof.
  intros [->|[H|[H|[H|H]]]]; [constructor| | | |];
    apply (folds_letters _ _ H); repeat constructor; cbn; lia.
Qed.

Lemma fix_verb_nonempty v : fix_verb v -> v <> [].
Proof. intros [H|[H|H]] ->; discriminate. Qed.

(** A string with a single space splits at it in one way only. *)
Lemma split_at_space (u v z z' : jstr) :
  ~ In (chr " ") u ->
  ~ In (chr " ") v ->
  u ++ chr " " :: v = z ++ chr " " :: z' -> z = u /\ z' = v.
Proof.
  intros Hu Hv H. apply app_eq_app in H.
  destruct H as (l & [[-> H]|[-> H]]).
  - destruct l as [|x l].
    + cbn in H. injection H as ->. now rewrite app_nil_r.
    + cbn in H. injection H as <- ->. exfalso. apply Hu.
      apply in_or_app. right. now left.
  - destruct l as [|x l].
    + cbn in H. injection H as ->. now rewrite app_nil_r.
    + cbn in H. injection H as <- ->. exfalso. apply Hv.
      apply in_or_app. right. now left.
Qed.

(** What the rewriting makes of a title that matches. *)
Lemma rewriteTitle_matched options t mr :
  Forall (fun c => c <> chr "$") (baseIssueUrl options) ->
  COMMIT_FIX_match t = Some mr ->
  exists n,
    t = m_before mr ++ m_matched mr ++ m_after mr
    /\ fix_reference (m_matched mr) n
    /\ match m_after mr with
       | c :: _ => is_digit c = false
       | [] => True
       end
    /\ (forall b w a, t = b ++ w ++ a -> Matches w ->
                      List.length (m_before mr) <= List.length b)
    /\ rewriteTitle options t
       = m_before mr ++ lit "Closes [#" ++ n ++ lit "]("
           ++ baseIssueUrl options ++ n ++ lit ")" ++ m_after mr.
Proof.
  intros Hb Hm.
  assert (Hm' := Hm). unfold COMMIT_FIX_match, String_match in Hm'.
  apply RegExp_exec_Some in Hm'.
  destruct Hm' as (Ht & Hsem & Hhere & Hleft).
  apply COMMIT_FIX_here in Hhere.
  destruct Hhere as (n & Hn & Ha & Hc).
  exists n. repeat (split; [assumption|]).
  assert (Htr : truthy_string t = true).
  { destruct t; [vm_compute in Hm; discriminate|reflexivity]. }
  unfold rewriteTitle. rewrite Htr, Hm.
  unfold COMMIT_FIX_replace, String_replace.
  unfold COMMIT_FIX_match, String_match in Hm. rewrite Hm.
  rewrite (closes_template_subst options mr Hb).
  unfold capture_text. rewrite Hc. now rewrite <- !app_assoc.
Qed.

Lemma digits_no_space (n : jstr) :
  Forall (fun c => is_digit c = true) n -> ~ In (chr " ") n.
Proof.
  intros H Hin. rewrite Forall_forall in H. apply H in Hin. discriminate.
Qed.

(** A title with no match after its first one no longer matches once it
    has been rewritten, when the base URL has no dollar sign and no
    space: the text put in place of the match has one space, which an
    opening bracket follows, it starts with a letter that is neither a
    marker nor a digit and ends with a closing parenthesis. *)
Lemma rewritten_settles options t mr :
  Forall (fun c => c <> chr "$") (baseIssueUrl options) ->
  ~ In (chr " ") (baseIssueUrl options) ->
  COMMIT_FIX_match t = Some mr ->
  COMMIT_FIX_match (m_after mr) = None ->
  COMMIT_FIX_match (rewriteTitle options t) = None.
Proof.
  intros Hb Hsp Hm Hafter.
  destruct (rewriteTitle_matched options t mr Hb Hm)
    as (n & Ht & Href & _ & Hleft & Hr).
  destruct (COMMIT_FIX_match (rewriteTitle options t)) as [mr'|] eqn:E;
    [exfalso|reflexivity].
  unfold COMMIT_FIX_match, String_match in E.
  apply RegExp_exec_Some in E. destruct E as (EX & Hw' & _ & _).
  apply Matches_iff in Hw'.
  destruct Hw' as (n' & verb & ending & mk & Ew & Hv & He & Hmk & Hn' & Hd').
  destruct n' as [|d n'']; [congruence|]. clear Hn'.
  assert (Hd : is_digit d = true) by (now inversion Hd').
  destruct Href as (_ & _ & _ & _ & _ & _ & _ & Hn & Hdn).
  set (before := m_before mr) in *. set (after := m_after mr) in *.
  set (L := verb ++ ending).
  assert (HL : Forall (fun c => is_letter c = true) L).
  { apply Forall_app. split;
      [now apply fix_verb_letters|now apply fix_ending_letters]. }
  assert (HLne : L <> []).
  { unfold L. intros H. apply app_eq_nil in H.
    now apply (fix_verb_nonempty verb Hv). }
  assert (Hw1 : Matches (L ++ [chr " "; mk; d])).
  { apply Matches_iff. exists [d], verb, ending, mk.
    unfold L. rewrite <- app_assoc. repeat split; auto.
    discriminate. }
  pose (V := chr "[" :: chr "#" :: n ++ lit "](" ++ baseIssueUrl options
               ++ n ++ lit ")").
  assert (HV : ~ In (chr " ") V).
  { unfold V. intros H. cbn [In] in H.
    destruct H as [H|[H|H]]; try discriminate.
    rewrite !in_app_iff in H. pose proof (digits_no_space n Hdn) as Hns.
    cbn in H. intuition discriminate. }
  assert (HR : lit "Closes" ++ chr " " :: V
               = (lit "Closes" ++ chr " " :: chr "[" :: chr "#" :: n
                    ++ lit "](" ++ baseIssueUrl options ++ n) ++ [chr ")"]).
  { unfold V. cbn. rewrite <- !app_assoc. cbn. rewrite <- !app_assoc.
    reflexivity. }
  rewrite Hr, Ew in EX.
  assert (EQ : (m_before mr' ++ L) ++ chr " " :: mk :: d :: (n'' ++ m_after mr')
               = before ++ (lit "Closes" ++ chr " " :: V) ++ after).
  { transitivity (m_before mr'
                    ++ (verb ++ ending ++ chr " " :: mk :: d :: n'')
                    ++ m_after mr').
    - unfold L. rewrite <- !app_assoc. reflexivity.
    - rewrite <- EX. unfold V. f_equal. cbn. rewrite <- !app_assoc.
      cbn. rewrite <- !app_assoc. reflexivity. }
  clear EX.
  apply app_eq_app in EQ. destruct EQ as (l & [[E1 E2]|[E1 E2]]).
  - (* the space is not before the rewritten part *)
    apply app_eq_app in E2. destruct E2 as (l2 & [[E3 E4]|[E3 E4]]).
    + (* the space is in the rewritten part *)
      destruct l2 as [|x l2].
      * cbn in E4. rewrite app_nil_r in E3. subst l.
        destruct (exists_last HLne) as (L' & x & EL).
        rewrite EL in E1, HL.
        rewrite HR in E1.
        rewrite !app_assoc in E1. apply app_inj_tail in E1.
        destruct E1 as [_ ->]. apply Forall_app in HL. destruct HL as [_ HL].
        inversion HL; subst. discriminate.
      * cbn in E4. injection E4 as <- E4.
        apply split_at_space in E3; [| |exact HV].
        -- destruct E3 as [-> ->]. unfold V in E4. cbn in E4.
           injection E4 as -> _ _. destruct Hmk as [H|[H|H]]; discriminate.
        -- cbn. intuition discriminate.
    + (* the space is after the rewritten part *)
      subst l. rewrite app_assoc in E1. apply app_eq_app in E1.
      destruct E1 as (l3 & [[E5 E6]|[E5 E6]]).
      * (* the reference starts after the rewritten part *)
        subst l2.
        apply (RegExp_exec_complete true COMMIT_FIX_REGEX l3
                 (L ++ [chr " "; mk; d]) (n'' ++ m_after mr') Hw1).
        etransitivity; [|exact Hafter].
        unfold COMMIT_FIX_match, String_match. f_equal. fold after.
        rewrite E4, <- !app_assoc. reflexivity.
      * destruct l3 as [|y l3].
        -- cbn in E6. subst l2.
           apply (RegExp_exec_complete true COMMIT_FIX_REGEX []
                    (L ++ [chr " "; mk; d]) (n'' ++ m_after mr') Hw1).
           etransitivity; [|exact Hafter].
           unfold COMMIT_FIX_match, String_match. f_equal. fold after.
           rewrite E4, <- !app_assoc. reflexivity.
        -- assert (Hne : y :: l3 <> []) by discriminate.
           destruct (exists_last Hne) as (l3' & x & El3).
           rewrite El3 in E5, E6.
           rewrite HR in E5.
           rewrite app_assoc in E5.
           rewrite (app_assoc (m_before mr') l3' [x]) in E5.
           apply app_inj_tail in E5.
           destruct E5 as [_ <-]. rewrite E6 in HL.
           apply Forall_app in HL. destruct HL as [HL _].
           apply Forall_app in HL. destruct HL as [_ HL].
           inversion HL; subst. discriminate.
  - (* the space is before the rewritten part *)
    destruct l as [|l0 [|l1 [|l2 l']]]; cbn in E2.
    + discriminate.
    + assert (mk = 67%N) as -> by congruence.
      destruct Hmk as [H|[H|H]]; discriminate.
    + assert (d = 67%N) as -> by congruence. discriminate.
    + injection E2 as <- <- <- E2.
      assert (Hlen : List.length before <= List.length (m_before mr')).
      { apply (Hleft (m_before mr') (L ++ [chr " "; mk; d])
                 (l' ++ m_matched mr ++ after)); [|apply Hw1].
        rewrite Ht. fold before. rewrite E1. rewrite <- !app_assoc.
        reflexivity. }
      rewrite E1 in Hlen. rewrite !length_app in Hlen. cbn in Hlen. lia.
Qed.

(** The forms the pattern is written for are issue references. *)
Lemma listed_forms_are_references (verb ending : jstr) (marker : N)
  (n : jstr) :
  In verb [lit "fix"; lit "close"; lit "resolve";
           lit "Fix"; lit "Close"; lit "Resolve";
           lit "FIX"; lit "CLOSE"; lit "RESOLVE"] ->
  In ending [[]; lit "s"; lit "es"; lit "d"; lit "ed";
             lit "S"; lit "ES"; lit "D"; lit "ED"] ->
  fix_marker marker -> digits n ->
  fix_reference (verb ++ ending ++ chr " " :: marker :: n) n
  /\ Matches (verb ++ ending ++ chr " " :: marker :: n).
Proof.
  intros Hv He Hm Hd.
  assert (R : fix_reference (verb ++ ending ++ chr " " :: marker :: n) n).
  { exists verb, ending, marker. split; [reflexivity|].
    split; [|split; [|split; assumption]].
    - cbn [In] in Hv. unfold fix_verb, folds_to.
      repeat (destruct Hv as [<-|Hv]; [cbn; tauto|]). destruct Hv.
    - cbn [In] in He. unfold fix_ending, folds_to.
      repeat (destruct He as [<-|He]; [cbn; tauto|]). destruct He. }
  split; [exact R|]. apply Matches_iff. now exists n.
Qed.

(** C1, as stated, fails: only the first match is rewritten, the second
    one stays in the title and still matches; and a dollar sign in the
    base URL is read as a replacement pattern, so what lands between the
    parentheses is not the base URL followed by the number. *)
Lemma renderContribution_second_match_kept :
  title (snd (renderContribution options_example commit_bug
                (store_of (issue_titled (lit "fixes #1 and fixes #2")))) 0)
  = lit "Closes [#1](https://example.com/issues/1) and fixes #2"
  /\ COMMIT_FIX_match
       (lit "Closes [#1](https://example.com/issues/1) and fixes #2")
     <> None
  /\ fst (renderContribution options_example commit_bug
            (store_of (issue_titled (lit "fixes #1 and fixes #2"))))
     = Some (lit "[#7](https://github.com/o/r/pull/7) Closes [#1](https://example.com/issues/1) and fixes #2. ([@bob](https://github.com/bob))")
  /\ fst (renderContribution options_example commit_bug
            (store_of (issue_titled (lit "fixes #1 and fixes #2"))))
     <> Some (lit "[#7](https://github.com/o/r/pull/7) Closes [#1](https://example.com/issues/1) and Closes [#2](https://example.com/issues/2). ([@bob](https://github.com/bob))")
  /\ title (snd (renderContribution options_dollar commit_bug
                   (store_of (issue_titled (lit "fixes #42")))) 0)
     = lit "Closes [#42](https://example.com/fixes #42/42)"
  /\ title (snd (renderContribution options_dollar commit_bug
                   (store_of (issue_titled (lit "fixes #42")))) 0)
     <> lit "Closes [#42](https://example.com/$&/42)".
Proof.
  repeat split; try reflexivity; vm_compute; discriminate.
Qed.

(** C1, amended: when the title of the linked issue has a match of the
    fix pattern, that is a substring made of fix, close or resolve in
    either case, optionally s, es, d or ed, a space, "#" or "T" or "t" and
    digits, [renderContribution] rewrites the leftmost one, taken with all
    the digits that follow the marker, into "Closes [#N](<baseIssueUrl>N)",
    N being those digits, provided the base URL has no dollar sign; the
    text before and after that match is kept as it is, later matches
    included.  The rewritten title is stored in the issue and is the title
    the rendered line shows.  A title with such a substring is always found
    to match.  With the title "fixes #42" and the base URL
    https://example.com/issues/ the line contains
    "Closes [#42](https://example.com/issues/42)". *)
Theorem renderContribution_rewrites_first_match (options : Options)
  (commit : CommitInfo) (l : loc) (s : Store) :
  githubIssue commit = Some l ->
  (forall mr,
     Forall (fun c => c <> chr "$") (baseIssueUrl options) ->
     COMMIT_FIX_match (title (s l)) = Some mr ->
     exists n,
       title (s l) = m_before mr ++ m_matched mr ++ m_after mr
       /\ fix_reference (m_matched mr) n
       /\ match m_after mr with
          | c :: _ => is_digit c = false
          | [] => True
          end
       /\ (forall b w a n',
             title (s l) = b ++ w ++ a -> fix_reference w n' ->
             List.length (m_before mr) <= List.length b)
       /\ title (snd (renderContribution options commit s) l)
          = m_before mr ++ lit "Closes [#" ++ n ++ lit "]("
              ++ baseIssueUrl options ++ n ++ lit ")" ++ m_after mr
       /\ fst (renderContribution options commit s)
          = Some (pr_prefix (s l)
                    ++ (m_before mr ++ lit "Closes [#" ++ n ++ lit "]("
                          ++ baseIssueUrl options ++ n ++ lit ")"
                          ++ m_after mr)
                    ++ author_suffix (s l)))
  /\ (forall b w a n,
        title (s l) = b ++ w ++ a -> fix_reference w n ->
        COMMIT_FIX_match (title (s l)) <> None)
  /\ (title (s l) = lit "fixes #42" ->
      baseIssueUrl options = lit "https://example.com/issues/" ->
      fst (renderContribution options commit s)
      = Some (pr_prefix (s l)
                ++ lit "Closes [#42](https://example.com/issues/42)"
                ++ author_suffix (s l))).
Proof.
  intros Hl. split; [|split].
  - intros mr Hb Hm.
    destruct (rewriteTitle_matched options (title (s l)) mr Hb Hm)
      as (n & Ht & Hn & Ha & Hleft & Hr).
    exists n.
    split; [exact Ht|]. split; [exact Hn|]. split; [exact Ha|].
    split.
    { intros b w a n' Hs Hw. apply (Hleft b w a Hs).
      apply Matches_iff. now exists n'. }
    split.
    + rewrite (renderContribution_store options commit l s l Hl).
      rewrite Nat.eqb_refl. cbn [title with_title]. exact Hr.
    + rewrite (renderContribution_out options commit l s Hl).
      now rewrite Hr.
  - intros b w a n Ht Hw. rewrite Ht. apply RegExp_exec_complete.
    apply Matches_iff. now exists n.
  - intros Ht Hb. rewrite (renderContribution_out options commit l s Hl).
    do 3 f_equal. rewrite Ht. unfold rewriteTitle, closes_template.
    rewrite Hb. reflexivity.
Qed.

Lemma renderContribution_rewrites_first_match_witness :
  fst (renderContribution options_example commit_bug
         (store_of (issue_titled (lit "fixes #42"))))
  = Some (pr_prefix (issue_titled (lit "fixes #42"))
            ++ lit "Closes [#42](https://example.com/issues/42)"
            ++ author_suffix (issue_titled (lit "fixes #42")))
  /\ exists n,
       title (snd (renderContribution options_example commit_bug
                     (store_of (issue_titled (lit "see Fixed T42 now")))) 0)
       = lit "see Closes [#" ++ n ++ lit "](https://example.com/issues/"
           ++ n ++ lit ") now".
Proof.
  split.
  - apply (renderContribution_rewrites_first_match options_example
             commit_bug 0 (store_of (issue_titled (lit "fixes #42")))
             eq_refl);
      reflexivity.
  - destruct (COMMIT_FIX_match (lit "see Fixed T42 now")) as [mr|] eqn:E;
      [|vm_compute in E; discriminate].
    destruct (proj1 (renderContribution_rewrites_first_match options_example
                       commit_bug 0
                       (store_of (issue_titled (lit "see Fixed T42 now")))
                       eq_refl) mr)
      as (n & _ & _ & _ & _ & Ht & _).
    + apply Forall_forall. intros c Hc. cbn in Hc.
      repeat (destruct Hc as [<-|Hc]; [discriminate|]). destruct Hc.
    + exact E.
    + exists n. rewrite Ht. vm_compute in E. injection E as <-.
      reflexivity.
Defined.

(** ** Rendering a release twice *)

Lemma rewriteTitle_settled options t :
  COMMIT_FIX_match t = None -> rewriteTitle options t = t.
Proof.
  intros H. unfold rewriteTitle. rewrite H. now destruct (truthy_string t).
Qed.

Lemma rewriteTitle_iter options t k :
  COMMIT_FIX_match (rewriteTitle options t) = None ->
  Nat.iter (S k) (rewriteTitle options) t = rewriteTitle options t.
Proof.
  intros H. induction k as [|k IH]; [reflexivity|].
  change (Nat.iter (S (S k)) (rewriteTitle options) t)
    with (rewriteTitle options (Nat.iter (S k) (rewriteTitle options) t)).
  rewrite IH. now apply rewriteTitle_settled.
Qed.

(** C2, as stated, fails: a title with two matches is rewritten once by
    each call, so the second call returns another text than the first and
    changes the title again. *)
Lemma renderRelease_twice_differs :
  fst (renderRelease options_example (release_example [commit_bug])
         (store_of (issue_titled (lit "fixes #1 and fixes #2"))))
  = lit "## v1.0.0 (2020-01-01)" ++ LF ++ LF ++ lit "#### Bug" ++ LF
      ++ lit "* [#7](https://github.com/o/r/pull/7) Closes [#1](https://example.com/issues/1) and fixes #2. ([@bob](https://github.com/bob))"
  /\ fst (renderRelease options_example (release_example [commit_bug])
            (snd (renderRelease options_example (release_example [commit_bug])
                    (store_of (issue_titled (lit "fixes #1 and fixes #2"))))))
     = lit "## v1.0.0 (2020-01-01)" ++ LF ++ LF ++ lit "#### Bug" ++ LF
         ++ lit "* [#7](https://github.com/o/r/pull/7) Closes [#1](https://example.com/issues/1) and Closes [#2](https://example.com/issues/2). ([@bob](https://github.com/bob))"
  /\ fst (renderRelease options_example (release_example [commit_bug])
            (snd (renderRelease options_example (release_example [commit_bug])
                    (store_of (issue_titled (lit "fixes #1 and fixes #2"))))))
     <> fst (renderRelease options_example (release_example [commit_bug])
               (store_of (issue_titled (lit "fixes #1 and fixes #2"))))
  /\ title (snd (renderRelease options_example (release_example [commit_bug])
                   (snd (renderRelease options_example
                           (release_example [commit_bug])
                           (store_of
                              (issue_titled (lit "fixes #1 and fixes #2")))))) 0)
     <> title (snd (renderRelease options_example
                      (release_example [commit_bug])
                      (store_of (issue_titled (lit "fixes #1 and fixes #2")))) 0).
Proof.
  repeat split; try reflexivity; vm_compute; discriminate.
Qed.

(** C2, amended: when the title of every issue linked from the release's
    commits no longer matches the fix pattern once it has been rewritten,
    the second of two calls of [renderRelease] on the same release returns
    the text the first returned and leaves every issue as the first left
    it; after the first call a title is what it was or its rewriting.
    The condition holds for a title without a match
    ([rewriteTitle_settled]) and, when the base URL has no dollar sign and
    no space, for a title with no match after its first one
    ([rewritten_settles]). *)
Theorem renderRelease_twice (options : Options) (release : Release)
  (s : Store) :
  (forall c l, In c (commits release) -> githubIssue c = Some l ->
               COMMIT_FIX_match (rewriteTitle options (title (s l))) = None) ->
  fst (renderRelease options release (snd (renderRelease options release s)))
    = fst (renderRelease options release s)
  /\ (forall l,
        snd (renderRelease options release
               (snd (renderRelease options release s))) l
        = snd (renderRelease options release s) l)
  /\ (forall l,
        title (snd (renderRelease options release s) l) = title (s l)
        \/ title (snd (renderRelease options release s) l)
           = rewriteTitle options (title (s l))).
Proof.
  intros Hst.
  set (L := release_locs options release).
  assert (HL : forall l, count_occ Nat.eq_dec L l = 0
                         \/ exists k, count_occ Nat.eq_dec L l = S k
                            /\ COMMIT_FIX_match
                                 (rewriteTitle options (title (s l))) = None).
  { intros l. destruct (count_occ Nat.eq_dec L l) as [|k] eqn:E; [now left|].
    right. exists k. split; [reflexivity|].
    assert (Hin : In l L).
    { apply (count_occ_In Nat.eq_dec). lia. }
    apply release_locs_In in Hin. destruct Hin as (c & Hc & Hl).
    exact (Hst c l Hc Hl). }
  assert (H1 : forall l, snd (renderRelease options release s) l
                         = touched options L s l).
  { intros l. apply Touches_renderRelease. }
  assert (Hsim : sim options (snd (renderRelease options release s)) s).
  { intros l. rewrite H1. unfold touched.
    cbn [number pull_request user title with_title].
    repeat (split; [reflexivity|]).
    destruct (HL l) as [->|(k & -> & Hk)]; [reflexivity|].
    rewrite (rewriteTitle_iter options _ k Hk).
    now apply rewriteTitle_settled. }
  split; [|split].
  - apply (Respects_renderRelease options release _ _ Hsim).
  - intros l.
    rewrite (Touches_renderRelease options release
               (snd (renderRelease options release s)) l).
    fold L. unfold touched at 1. rewrite H1. unfold touched.
    cbn [number pull_request user title with_title].
    destruct (HL l) as [->|(k & -> & Hk)]; [reflexivity|].
    rewrite (rewriteTitle_iter options _ k Hk).
    rewrite rewriteTitle_iter.
    + now rewrite (rewriteTitle_settled options _ Hk).
    + now rewrite (rewriteTitle_settled options _ Hk).
  - intros l. rewrite H1. unfold touched. cbn [title with_title].
    destruct (HL l) as [->|(k & -> & Hk)]; [now left|right].
    apply (rewriteTitle_iter options _ k Hk).
Qed.

Lemma renderRelease_twice_witness :
  fst (renderRelease options_example (release_example [commit_bug])
         (snd (renderRelease options_example (release_example [commit_bug])
                 (store_of (issue_titled (lit "fixes #42"))))))
  = fst (renderRelease options_example (release_example [commit_bug])
           (store_of (issue_titled (lit "fixes #42")))).
Proof.
  apply (renderRelease_twice options_example (release_example [commit_bug])
           (store_of (issue_titled (lit "fixes #42")))).
  intros c l Hc Hl. reflexivity.
Defined.

Lemma renderRelease_empty_contributors_witness :
  renderRelease options_example
    (with_contributors (release_example [commit_bug]) (Some []))
    (store_of (issue_titled (lit "fixes #42")))
  = (fst (renderRelease options_example
            (with_contributors (release_example [commit_bug]) None)
            (store_of (issue_titled (lit "fixes #42"))))
       ++ LF ++ LF ++ lit "#### Committers: 0" ++ LF,
     snd (renderRelease options_example
            (with_contributors (release_example [commit_bug]) None)
            (store_of (issue_titled (lit "fixes #42"))))).
Proof.
  apply (renderRelease_empty_contributors options_example
           (release_example [commit_bug])
           (store_of (issue_titled (lit "fixes #42")))).
  vm_compute. discriminate.
Defined.

(** * Further properties *)

Lemma match_is_reference (t : jstr) (mr : MatchResult) :
  COMMIT_FIX_match t = Some mr ->
  t = m_before mr ++ m_matched mr ++ m_after mr
  /\ exists n, fix_reference (m_matched mr) n.
Proof.
  intros E. unfold COMMIT_FIX_match, String_match in E.
  apply RegExp_exec_Some in E. destruct E as (Ht & Hs & _ & _).
  split; [exact Ht|]. now apply Matches_iff.
Qed.

(** X1: [COMMIT_FIX_REGEX] finds a match in a title exactly when the title
    contains a reference: one of the verbs fix, close, resolve, then nothing
    or one of the endings s, es, d, ed, the letters in either case, then a
    space, then one of the markers #, T, t, then one or more decimal
    digits. *)
Theorem COMMIT_FIX_match_iff (t : jstr) :
  COMMIT_FIX_match t <> None
  <-> exists b w a n, t = b ++ w ++ a /\ fix_reference w n.
Proof.
  split.
  - destruct (COMMIT_FIX_match t) as [mr|] eqn:E; [intros _|congruence].
    destruct (match_is_reference t mr E) as (Ht & n & Hn).
    now exists (m_before mr), (m_matched mr), (m_after mr), n.
  - intros (b & w & a & n & -> & Hw).
    apply RegExp_exec_complete. apply Matches_iff. now exists n.
Qed.

Lemma no_digit_no_match (t : jstr) :
  (forall c, In c t -> is_digit c = false) -> COMMIT_FIX_match t = None.
Proof.
  intros H. destruct (COMMIT_FIX_match t) as [mr|] eqn:E; [|reflexivity].
  exfalso. destruct (match_is_reference t mr E) as (Ht & n & Hn).
  destruct Hn as (v & e & mk & Ew & _ & _ & _ & Hn & Hd).
  destruct n as [|d n]; [congruence|].
  assert (Hd1 : is_digit d = true) by (now inversion Hd).
  rewrite (H d) in Hd1; [discriminate|].
  rewrite Ht, Ew.
  apply in_or_app. right. apply in_or_app. left.
  apply in_or_app. right. apply in_or_app. right. cbn. auto.
Qed.

(** X2: a title without a decimal digit is rendered as it stands, between
    the pull request link and the author link, and no stored issue is
    changed. *)
Theorem title_without_digit_kept (options : Options) (commit : CommitInfo)
  (l : loc) (s : Store) :
  githubIssue commit = Some l ->
  (forall c, In c (title (s l)) -> is_digit c = false) ->
  fst (renderContribution options commit s)
    = Some (pr_prefix (s l) ++ title (s l) ++ author_suffix (s l))
  /\ (forall l', snd (renderContribution options commit s) l' = s l').
Proof.
  intros Hl Hd. pose proof (no_digit_no_match _ Hd) as Hn. split.
  - rewrite (renderContribution_out options commit l s Hl).
    now rewrite (rewriteTitle_settled options _ Hn).
  - intros l'. rewrite (renderContribution_store options commit l s l' Hl).
    destruct (Nat.eqb_spec l' l) as [->|_]; [|reflexivity].
    rewrite (rewriteTitle_settled options _ Hn). apply with_title_same.
Qed.

Lemma title_without_digit_kept_witness :
  fst (renderContribution options_example commit_bug
         (store_of (issue_titled (lit "update docs"))))
    = Some (pr_prefix (issue_titled (lit "update docs"))
              ++ lit "update docs"
              ++ author_suffix (issue_titled (lit "update docs")))
  /\ (forall l',
        snd (renderContribution options_example commit_bug
               (store_of (issue_titled (lit "update docs")))) l'
        = store_of (issue_titled (lit "update docs")) l').
Proof.
  apply (title_without_digit_kept options_example commit_bug 0
           (store_of (issue_titled (lit "update docs")))).
  - reflexivity.
  - intros c Hc. cbn in Hc.
    repeat (destruct Hc as [<-|Hc]; [reflexivity|]). destruct Hc.
Defined.

Lemma rewriteTitle_iter_settled options t k :
  COMMIT_FIX_match t = None -> Nat.iter k (rewriteTitle options) t = t.
Proof.
  intros H. induction k as [|k IH]; [reflexivity|].
  rewrite Nat.iter_succ, IH. now apply rewriteTitle_settled.
Qed.

(** X3: when no commit of the releases has an issue whose title matches
    [COMMIT_FIX_REGEX], [renderMarkdown] leaves every stored issue as it
    was. *)
Theorem renderMarkdown_read_only (options : Options)
  (releases : list Release) (s : Store) :
  (forall r c l, In r releases -> In c (commits r) ->
                 githubIssue c = Some l ->
                 COMMIT_FIX_match (title (s l)) = None) ->
  forall l, snd (renderMarkdown options releases s) l = s l.
Proof.
  intros H l. rewrite (Touches_renderMarkdown options releases s l).
  unfold touched.
  destruct (count_occ Nat.eq_dec (markdown_locs options releases) l)
    as [|k] eqn:E.
  - cbn. apply with_title_same.
  - assert (Hin : In l (markdown_locs options releases)).
    { apply (count_occ_In Nat.eq_dec). lia. }
    apply markdown_locs_In in Hin. destruct Hin as (r & c & Hr & Hc & Hl).
    rewrite (rewriteTitle_iter_settled options _ (S k) (H r c l Hr Hc Hl)).
    apply with_title_same.
Qed.

Lemma renderMarkdown_read_only_witness :
  snd (renderMarkdown options_example [release_example [commit_bug]]
         (store_of (issue_titled (lit "update docs")))) 0
  = store_of (issue_titled (lit "update docs")) 0.
Proof.
  apply (renderMarkdown_read_only options_example
           [release_example [commit_bug]]
           (store_of (issue_titled (lit "update docs")))).
  intros r c l Hr Hc Hl. reflexivity.
Defined.

Lemma Respects_renderMarkdown options releases :
  Respects options (renderMarkdown options releases).
Proof.
  unfold renderMarkdown. apply Respects_bind.
  - apply Respects_mapM. apply Respects_renderRelease.
  - intros a. apply Respects_ret.
Qed.

Lemma run_twice options {A} (m : M A) (L : list loc) (s : Store) :
  Touches options m L -> Respects options m ->
  (forall l, In l L ->
             COMMIT_FIX_match (rewriteTitle options (title (s l))) = None) ->
  fst (m (snd (m s))) = fst (m s)
  /\ (forall l, snd (m (snd (m s))) l = snd (m s) l).
Proof.
  intros HT HR Hst.
  assert (HL : forall l, count_occ Nat.eq_dec L l = 0
                         \/ exists k, count_occ Nat.eq_dec L l = S k
                            /\ COMMIT_FIX_match
                                 (rewriteTitle options (title (s l))) = None).
  { intros l. destruct (count_occ Nat.eq_dec L l) as [|k] eqn:E; [now left|].
    right. exists k. split; [reflexivity|]. apply Hst.
    apply (count_occ_In Nat.eq_dec). lia. }
  assert (Hsim : sim options (snd (m s)) s).
  { intros l. rewrite HT. unfold touched.
    cbn [number pull_request user title with_title].
    repeat (split; [reflexivity|]).
    destruct (HL l) as [->|(k & -> & Hk)]; [reflexivity|].
    rewrite (rewriteTitle_iter options _ k Hk).
    now apply rewriteTitle_settled. }
  split.
  - apply (HR _ _ Hsim).
  - intros l. rewrite (HT (snd (m s)) l). unfold touched at 1.
    rewrite HT. unfold touched.
    cbn [number pull_request user title with_title].
    destruct (HL l) as [->|(k & -> & Hk)]; [reflexivity|].
    rewrite (rewriteTitle_iter options _ k Hk).
    rewrite rewriteTitle_iter;
      now rewrite (rewriteTitle_settled options _ Hk).
Qed.

(** X4: when the title of every issue of the releases no longer matches
    after one rewriting, a second run of [renderMarkdown] on the store the
    first run left returns the same text and leaves that store as it is. *)
Theorem renderMarkdown_twice (options : Options) (releases : list Release)
  (s : Store) :
  (forall r c l, In r releases -> In c (commits r) ->
                 githubIssue c = Some l ->
                 COMMIT_FIX_match (rewriteTitle options (title (s l))) = None) ->
  fst (renderMarkdown options releases
         (snd (renderMarkdown options releases s)))
    = fst (renderMarkdown options releases s)
  /\ (forall l,
        snd (renderMarkdown options releases
               (snd (renderMarkdown options releases s))) l
        = snd (renderMarkdown options releases s) l).
Proof.
  intros H.
  apply (run_twice options _ (markdown_locs options releases)).
  - apply Touches_renderMarkdown.
  - apply Respects_renderMarkdown.
  - intros l Hin. apply markdown_locs_In in Hin.
    destruct Hin as (r & c & Hr & Hc & Hl). exact (H r c l Hr Hc Hl).
Qed.

Lemma renderMarkdown_twice_witness :
  fst (renderMarkdown options_example [release_example [commit_bug]]
         (snd (renderMarkdown options_example [release_example [commit_bug]]
                 (store_of (issue_titled (lit "fixes #42"))))))
  = fst (renderMarkdown options_example [release_example [commit_bug]]
           (store_of (issue_titled (lit "fixes #42")))).
Proof.
  apply (renderMarkdown_twice options_example [release_example [commit_bug]]
           (store_of (issue_titled (lit "fixes #42")))).
  intros r c l Hr Hc Hl. reflexivity.
Defined.

Lemma flat_map_filter_skip (c : CommitInfo) (cs : list CommitInfo)
  (ks : list jstr) :
  ~ In (package_label c) ks ->
  flat_map (fun k => filter (fun x => jstr_eqb (package_label x) k) (c :: cs)) ks
  = flat_map (fun k => filter (fun x => jstr_eqb (package_label x) k) cs) ks.
Proof.
  induction ks as [|k ks IH]; intros H; [reflexivity|].
  cbn [flat_map]. rewrite IH by (intros Hin; apply H; now right).
  f_equal. cbn [filter].
  assert (jstr_eqb (package_label c) k = false) as ->; [|reflexivity].
  apply jstr_eqb_neq. intros E. apply H. now left.
Qed.

Lemma groups_partition (cs : list CommitInfo) (ks : list jstr) :
  NoDup ks ->
  (forall c, In c cs -> In (package_label c) ks) ->
  Permutation
    (flat_map (fun k => filter (fun x => jstr_eqb (package_label x) k) cs) ks)
    cs.
Proof.
  intros Hnd. induction cs as [|c cs IH]; intros Hin.
  - clear Hnd Hin. induction ks as [|k ks IHk]; [constructor|exact IHk].
  - destruct (in_split _ _ (Hin c (or_introl eq_refl))) as (k1 & k2 & Ek).
    rewrite Ek in Hnd. pose proof (NoDup_remove_2 _ _ _ Hnd) as Hout.
    assert (IH' := IH (fun x Hx => Hin x (or_intror Hx))).
    rewrite Ek in IH' |- *.
    rewrite flat_map_app in IH' |- *. cbn [flat_map] in IH' |- *.
    rewrite !flat_map_filter_skip
      by (intros H; apply Hout; apply in_or_app; tauto).
    cbn [filter]. rewrite jstr_eqb_refl.
    cbn [app]. apply Permutation_sym.
    apply Permutation_cons_app. now apply Permutation_sym.
Qed.

(** X5: the groups of [renderContributionsByPackage], taken in the order of
    their keys, hold every commit exactly once, and each commit lies in the
    group named by its own package label. *)
Theorem commitsByPackage_partition (commits : list CommitInfo) :
  Permutation
    (flat_map (group_commits (commitsByPackage commits))
       (Object_keys (commitsByPackage commits)))
    commits
  /\ (forall k c,
        In c (group_commits (commitsByPackage commits) k) ->
        In c commits /\ package_label c = k).
Proof.
  split.
  - rewrite Object_keys_commitsByPackage.
    rewrite (flat_map_ext _
               (fun k => filter (fun x => jstr_eqb (package_label x) k) commits))
      by (intros k; apply group_commits_filter).
    apply groups_partition; [apply first_seen_NoDup|].
    intros c Hc. apply first_seen_In. now apply in_map.
  - intros k c. rewrite group_commits_filter, filter_In, jstr_eqb_eq. tauto.
Qed.

Lemma split_at_first (x : N) (u v z z' : jstr) :
  ~ In x u -> ~ In x z -> u ++ x :: v = z ++ x :: z' -> u = z /\ v = z'.
Proof.
  intros Hu Hz H. apply app_eq_app in H.
  destruct H as (l & [[-> H]|[-> H]]).
  - destruct l as [|y l].
    + cbn in H. injection H as ->. now rewrite app_nil_r.
    + cbn in H. injection H as <- _. exfalso. apply Hu.
      apply in_or_app. right. now left.
  - destruct l as [|y l].
    + cbn in H. injection H as ->. now rewrite app_nil_r.
    + cbn in H. injection H as <- _. exfalso. apply Hz.
      apply in_or_app. right. now left.
Qed.

Lemma join_cons (sep x : jstr) (l : list jstr) :
  join sep (x :: l)
  = x ++ match l with [] => [] | _ :: _ => sep ++ join sep l end.
Proof. destruct l; cbn [join]; [now rewrite app_nil_r|reflexivity]. Qed.

Lemma quoted_join_inj (ps qs : list jstr) :
  ps <> [] -> qs <> [] ->
  (forall p, In p ps -> ~ In (chr "`") p) ->
  (forall q, In q qs -> ~ In (chr "`") q) ->
  join (lit ", ") (map (fun pkg => lit "`" ++ pkg ++ lit "`") ps)
  = join (lit ", ") (map (fun pkg => lit "`" ++ pkg ++ lit "`") qs) ->
  ps = qs.
Proof.
  revert qs. induction ps as [|p ps IH]; intros qs Hp Hq Hps Hqs H;
    [congruence|].
  destruct qs as [|q qs]; [congruence|].
  cbn [map] in H. rewrite !join_cons in H.
  rewrite <- !app_assoc in H.
  change (lit "`") with [chr "`"] in H. cbn [app] in H.
  injection H as H.
  apply split_at_first in H;
    [|apply Hps; now left|apply Hqs; now left].
  destruct H as [-> E]. f_equal.
  destruct ps as [|p' ps], qs as [|q' qs]; try discriminate; [reflexivity|].
  injection E as E.
  apply (IH (q' :: qs)); [discriminate|discriminate| | |exact E].
  - intros x Hx. apply Hps. now right.
  - intros x Hx. apply Hqs. now right.
Qed.

(** X6: [renderContributorList] gives the same text for any two
    orderings of the same contributors. *)
Theorem renderContributorList_permutation
  (contributors contributors' : list GitHubUserResponse) :
  Permutation contributors contributors' ->
  renderContributorList contributors = renderContributorList contributors'.
Proof.
  intros HP. unfold renderContributorList.
  rewrite (Permutation_length HP). do 4 f_equal.
  apply sorted_rearrangement_unique; try apply Array_sort_sorted.
  eapply perm_trans; [apply Array_sort_perm|].
  eapply perm_trans; [|apply Permutation_sym, Array_sort_perm].
  now apply Permutation_map.
Qed.

Lemma renderContributorList_permutation_witness :
  renderContributorList [contributor_example_1; contributor_example_2]
  = renderContributorList [contributor_example_2; contributor_example_1].
Proof.
  apply (renderContributorList_permutation
           [contributor_example_1; contributor_example_2]
           [contributor_example_2; contributor_example_1]).
  apply perm_swap.
Defined.

Lemma first_seen_constant (k : jstr) (l : list jstr) :
  l <> [] -> (forall x, In x l -> x = k) -> first_seen l = [k].
Proof.
  induction l as [|x l IH]; intros Hne H; [congruence|].
  assert (x = k) as -> by (apply H; now left).
  cbn [first_seen]. f_equal. destruct l as [|y l]; [reflexivity|].
  rewrite IH; [|discriminate|intros z Hz; apply H; now right].
  cbn. now rewrite jstr_eqb_refl.
Qed.

Lemma filter_all {A} (f : A -> bool) (l : list A) :
  (forall x, In x l -> f x = true) -> filter f l = l.
Proof.
  induction l as [|x l IH]; intros H; [reflexivity|].
  cbn. rewrite (H x (or_introl eq_refl)). f_equal. apply IH.
  intros y Hy. apply H. now right.
Qed.

(** X7: when all commits of a non-empty list have the same package label,
    [renderContributionsByPackage] gives one group: the label after a star,
    a line feed, and the contribution list of all the commits indented by
    two spaces. *)
Theorem renderContributionsByPackage_single_group (options : Options)
  (commits : list CommitInfo) (k : jstr) (s : Store) :
  commits <> [] ->
  (forall c, In c commits -> package_label c = k) ->
  renderContributionsByPackage options commits s
  = (lit "* " ++ k ++ LF
       ++ fst (renderContributionList options commits (lit "  ") s),
     snd (renderContributionList options commits (lit "  ") s)).
Proof.
  intros Hne Hk. unfold renderContributionsByPackage.
  rewrite Object_keys_commitsByPackage.
  rewrite (first_seen_constant k).
  - rewrite bind_run, mapM_cons. cbn [mapM ret fst snd join].
    fold (group_commits (commitsByPackage commits) k).
    rewrite group_commits_filter.
    rewrite filter_all by (intros c Hc; apply jstr_eqb_eq; now apply Hk).
    rewrite bind_run. reflexivity.
  - destruct commits; [congruence|discriminate].
  - intros x Hx. apply in_map_iff in Hx. destruct Hx as (c & <- & Hc).
    now apply Hk.
Qed.

Lemma renderContributionsByPackage_single_group_witness :
  renderContributionsByPackage options_example [commit_core]
    (store_of (issue_titled (lit "fixes #42")))
  = (lit "* " ++ lit "`core`" ++ LF
       ++ fst (renderContributionList options_example [commit_core]
                 (lit "  ") (store_of (issue_titled (lit "fixes #42")))),
     snd (renderContributionList options_example [commit_core]
            (lit "  ") (store_of (issue_titled (lit "fixes #42"))))).
Proof.
  apply (renderContributionsByPackage_single_group options_example
           [commit_core] (lit "`core`")
           (store_of (issue_titled (lit "fixes #42")))).
  - discriminate.
  - intros c [<-|[]]. reflexivity.
Defined.

Lemma GetSubstitution_escaped m mr u rest :
  GetSubstitution m mr (escape_dollars u ++ rest)
  = u ++ GetSubstitution m mr rest.
Proof.
  induction u as [|c u IH]; [reflexivity|].
  unfold escape_dollars. cbn [flat_map]. fold (escape_dollars u).
  destruct (N.eqb_spec c (chr "$")) as [->|Hc].
  - rewrite <- app_assoc. cbn [app GetSubstitution].
    change (negb (chr "$" =? 36)%N) with false. cbn iota.
    change ((chr "$" =? 36)%N) with true. cbn iota.
    now rewrite IH.
  - rewrite <- app_assoc. cbn [app GetSubstitution].
    destruct (N.eqb_spec c 36); [contradiction|]. cbn [negb].
    now rewrite IH.
Qed.

Lemma rewriteTitle_escaped_base (options : Options) (u t : jstr)
  (mr : MatchResult) :
  baseIssueUrl options = escape_dollars u ->
  COMMIT_FIX_match t = Some mr ->
  exists n,
    m_captures mr 3 = Some n /\ digits n
    /\ rewriteTitle options t
       = m_before mr ++ lit "Closes [#" ++ n ++ lit "](" ++ u ++ n ++ lit ")"
           ++ m_after mr.
Proof.
  intros Hb Hm.
  assert (Hm' := Hm). unfold COMMIT_FIX_match, String_match in Hm'.
  apply RegExp_exec_Some in Hm'. destruct Hm' as (_ & _ & Hhere & _).
  apply COMMIT_FIX_here in Hhere. destruct Hhere as (n & Href & _ & Hc).
  exists n. split; [exact Hc|]. split.
  { destruct Href as (_ & _ & _ & _ & _ & _ & _ & Hd). exact Hd. }
  assert (Htr : truthy_string t = true).
  { destruct t; [vm_compute in Hm; discriminate|reflexivity]. }
  unfold rewriteTitle. rewrite Htr, Hm.
  unfold COMMIT_FIX_replace, String_replace.
  unfold COMMIT_FIX_match, String_match in Hm. rewrite Hm.
  assert (G : GetSubstitution COMMIT_FIX_GROUPS mr (closes_template options)
              = lit "Closes [#" ++ n ++ lit "](" ++ u ++ n ++ lit ")").
  { unfold closes_template. rewrite Hb.
    change (lit "Closes [#$3](")
      with (lit "Closes [#" ++ [36%N; 51%N] ++ lit "](").
    rewrite <- !app_assoc.
    rewrite GetSubstitution_plain by (repeat constructor; discriminate).
    f_equal.
    change (GetSubstitution COMMIT_FIX_GROUPS mr
              ([36%N; 51%N] ++ lit "](" ++ escape_dollars u ++ lit "$3)"))
      with (capture_text (m_captures mr) 3
              ++ GetSubstitution COMMIT_FIX_GROUPS mr
                   (lit "](" ++ escape_dollars u ++ lit "$3)")).
    unfold capture_text at 1. rewrite Hc. f_equal.
    rewrite GetSubstitution_plain by (repeat constructor; discriminate).
    f_equal. rewrite GetSubstitution_escaped. f_equal.
    change (GetSubstitution COMMIT_FIX_GROUPS mr (lit "$3)"))
      with (capture_text (m_captures mr) 3 ++ lit ")").
    unfold capture_text. now rewrite Hc. }
  rewrite G. now rewrite <- !app_assoc.
Qed.

Lemma rendered_lines_count (options : Options) (commits : list CommitInfo)
  (s : Store) :
  List.length (filter_Boolean (fst (mapM (renderContribution options) commits s)))
  = List.length (filter has_issue commits)
  /\ Forall (fun r => exists body, r = body ++ lit "))")
       (filter_Boolean (fst (mapM (renderContribution options) commits s))).
Proof.
  revert s. induction commits as [|c cs IH]; intros s.
  - cbn. split; [reflexivity|constructor].
  - rewrite mapM_cons. cbn [fst filter].
    destruct (IH (snd (renderContribution options c s))) as [IH1 IH2].
    unfold has_issue at 1. destruct (githubIssue c) as [l|] eqn:E.
    + rewrite (renderContribution_out options c l s E).
      cbn [filter_Boolean]. unfold author_suffix.
      assert (T : truthy_string
                    (pr_prefix (s l) ++ rewriteTitle options (title (s l))
                       ++ lit ". ([@" ++ user_login (user (s l)) ++ lit "]("
                       ++ user_html_url (user (s l)) ++ lit "))") = true).
      { apply truthy_string_iff. intros H.
        apply app_eq_nil in H. destruct H as [_ H].
        apply app_eq_nil in H. destruct H as [_ H]. discriminate. }
      rewrite T. cbn [List.length]. split; [now rewrite IH1|].
      constructor; [|exact IH2].
      eexists. rewrite !app_assoc. reflexivity.
    + rewrite (renderContribution_none options c s E).
      cbn [fst snd filter_Boolean].
      rewrite (renderContribution_none options c s E) in IH1, IH2.
      cbn [snd] in IH1, IH2. now split.
Qed.

(** X8: [renderContributionList] joins with line feeds one line per commit
    that has an issue, each made of the prefix, a star, a space and a text
    ending in two closing parentheses; it returns the empty string exactly
    when no commit has an issue. *)
Theorem renderContributionList_bullets (options : Options)
  (commits : list CommitInfo) (prefix : jstr) (s : Store) :
  exists lines,
    fst (renderContributionList options commits prefix s)
      = join LF (map (fun r => prefix ++ lit "* " ++ r) lines)
    /\ List.length lines = List.length (filter has_issue commits)
    /\ Forall (fun r => exists body, r = body ++ lit "))") lines
    /\ (fst (renderContributionList options commits prefix s) = []
        <-> forall c, In c commits -> githubIssue c = None).
Proof.
  destruct (rendered_lines_count options commits s) as [Hlen Hshape].
  exists (filter_Boolean (fst (mapM (renderContribution options) commits s))).
  assert (E : fst (renderContributionList options commits prefix s)
              = join LF (map (fun r => prefix ++ lit "* " ++ r)
                           (filter_Boolean
                              (fst (mapM (renderContribution options)
                                      commits s))))).
  { unfold renderContributionList. now rewrite bind_run. }
  split; [exact E|]. split; [exact Hlen|]. split; [exact Hshape|].
  rewrite E.
  set (lines := filter_Boolean _) in *. split.
  - intros Hj c Hc.
    destruct lines as [|x lines'] eqn:El.
    + cbn in Hlen. destruct (githubIssue c) eqn:Ec; [|reflexivity].
      assert (In c (filter has_issue commits)).
      { apply filter_In. split; [exact Hc|]. unfold has_issue. now rewrite Ec. }
      destruct (filter has_issue commits); [contradiction|discriminate].
    + exfalso. revert Hj. apply join_nonempty; [discriminate|].
      intros y Hy. apply in_map_iff in Hy. destruct Hy as (r & <- & _).
      intros H. apply app_eq_nil in H. destruct H as [_ H]. discriminate.
  - intros Hnone.
    assert (filter has_issue commits = []) as Hf.
    { apply filter_none. intros c Hc. unfold has_issue.
      now rewrite (Hnone c Hc). }
    rewrite Hf in Hlen. destruct lines; [reflexivity|discriminate].
Qed.

Lemma categoriesWithCommits_nil (options : Options) (release : Release) :
  categoriesWithCommits options release = []
  <-> (forall c name, In c (commits release) ->
                      In name (options_categories options) ->
                      has_category name c = false).
Proof.
  split; [|apply no_bucket].
  intros H c name Hc Hname.
  destruct (has_category name c) eqn:E; [exfalso|reflexivity].
  pose proof (categoriesWithCommits_names options release) as Hn.
  rewrite H in Hn. cbn [map] in Hn.
  assert (In name
            (filter (fun name =>
                       Nat.ltb 0 (List.length
                                    (filter (has_category name)
                                       (commits release))))
                    (options_categories options))) as Hin.
  { apply filter_In. split; [exact Hname|].
    assert (In c (filter (has_category name) (commits release)))
      by (apply filter_In; auto).
    destruct (filter (has_category name) (commits release));
      [contradiction|reflexivity]. }
  rewrite <- Hn in Hin. destruct Hin.
Qed.

(** X9: [renderRelease] returns the empty string exactly when no commit
    of the release carries a configured category. *)
Theorem renderRelease_empty_iff (options : Options) (release : Release)
  (s : Store) :
  fst (renderRelease options release s) = []
  <-> (forall c name, In c (commits release) ->
                      In name (options_categories options) ->
                      ~ carries c name).
Proof.
  assert (Hc : (forall c name, In c (commits release) ->
                  In name (options_categories options) -> ~ carries c name)
               <-> categoriesWithCommits options release = []).
  { rewrite categoriesWithCommits_nil. split; intros H c name Hc Hn.
    - apply not_true_is_false. rewrite has_category_carries. now apply H.
    - rewrite <- has_category_carries. now rewrite (H c name Hc Hn). }
  rewrite Hc. split.
  - intros H. destruct (categoriesWithCommits options release) eqn:E;
      [reflexivity|].
    assert (Hne : categoriesWithCommits options release <> [])
      by (rewrite E; discriminate).
    destruct (renderRelease_heading options release s Hne) as [rest Hr].
    rewrite Hr in H. discriminate.
  - intros H. now rewrite renderRelease_empty.
Qed.

(** X10: a release rendered to a non-empty text starts with its heading,
    where the name of the unreleased tag is shown as Unreleased, then the
    date in parentheses, a blank line, and the heading of a configured
    category that some commit of the release carries. *)
Theorem renderRelease_heading_text (options : Options) (release : Release)
  (s : Store) :
  fst (renderRelease options release s) <> [] ->
  exists first rest,
    In first (options_categories options)
    /\ (exists c, In c (commits release) /\ carries c first)
    /\ fst (renderRelease options release s)
       = lit "## "
           ++ (if jstr_eqb (release_name release) UNRELEASED_TAG
               then lit "Unreleased" else release_name release)
           ++ lit " (" ++ date release ++ lit ")" ++ LF ++ LF
           ++ lit "#### " ++ first ++ LF ++ rest.
Proof.
  intros Hne.
  destruct (categoriesWithCommits options release) as [|b others] eqn:H.
  { exfalso. apply Hne. now rewrite renderRelease_empty. }
  assert (Hb : In b (categoriesWithCommits options release))
    by (rewrite H; now left).
  unfold categoriesWithCommits in Hb. apply filter_In in Hb.
  destruct Hb as [Hb Hlen]. unfold groupByCategory in Hb.
  apply in_map_iff in Hb. destruct Hb as (name & <- & Hname).
  cbn [category_commits] in Hlen.
  assert (exists c, In c (commits release) /\ carries c name) as Hex.
  { destruct (filter (has_category name) (commits release)) as [|c cs] eqn:Ef;
      [discriminate|].
    assert (Hc : In c (filter (has_category name) (commits release)))
      by (rewrite Ef; now left).
    apply filter_In in Hc. exists c. split; [tauto|].
    apply has_category_carries. tauto. }
  unfold renderRelease.
  fold (categoriesWithCommits options release). rewrite H.
  cbn [List.length Nat.eqb]. rewrite bind_run. cbn [renderCategories].
  rewrite bind_run.
  match goal with
  | |- context [renderCategories options others ?m ?s'] =>
      destruct (renderCategories_prefix options others m s') as [rest Hrest];
      rewrite Hrest
  end.
  cbn [ret fst category_name].
  destruct (contributors release);
    eexists name, _; (split; [exact Hname|]); (split; [exact Hex|]);
    rewrite <- !app_assoc; reflexivity.
Qed.

Lemma renderRelease_heading_text_witness :
  exists first rest,
    In first (options_categories options_example)
    /\ (exists c, In c [commit_bug] /\ carries c first)
    /\ fst (renderRelease options_example (release_example [commit_bug])
              (store_of (issue_titled (lit "fixes #42"))))
       = lit "## v1.0.0 (2020-01-01)" ++ LF ++ LF
           ++ lit "#### " ++ first ++ LF ++ rest.
Proof.
  apply (renderRelease_heading_text options_example
           (release_example [commit_bug])
           (store_of (issue_titled (lit "fixes #42")))).
  vm_compute. discriminate.
Defined.

(** X11: with no configured category, [renderMarkdown] returns a single
    line feed for any releases and changes no stored issue. *)
Theorem renderMarkdown_no_categories (options : Options)
  (releases : list Release) (s : Store) :
  options_categories options = [] ->
  renderMarkdown options releases s = (LF, s).
Proof.
  intros H.
  assert (E : forall r st, renderRelease options r st = ([], st)).
  { intros r st. apply renderRelease_empty.
    unfold categoriesWithCommits, groupByCategory. now rewrite H. }
  unfold renderMarkdown. rewrite bind_run.
  assert (M : forall rs, mapM (renderRelease options) rs s
                         = (map (fun _ => []) rs, s)).
  { induction rs as [|r rs IH]; [reflexivity|].
    rewrite mapM_cons, E. cbn [fst snd]. now rewrite IH. }
  rewrite M. cbn [fst snd ret]. f_equal.
  induction releases as [|r rs IH]; [reflexivity|exact IH].
Qed.

Lemma renderMarkdown_no_categories_witness :
  renderMarkdown options_no_category [release_example [commit_bug]]
    (store_of (issue_titled (lit "fixes #42")))
  = (LF, store_of (issue_titled (lit "fixes #42"))).
Proof.
  apply (renderMarkdown_no_categories options_no_category
           [release_example [commit_bug]]
           (store_of (issue_titled (lit "fixes #42")))).
  reflexivity.
Defined.

(** X12: with a base issue URL without dollar sign and without space, and a
    title whose text after its first reference holds no further reference,
    the title [renderContribution] stores no longer matches, and rendering
    the commit again gives the same line and the same store. *)
Theorem renderContribution_again (options : Options) (commit : CommitInfo)
  (l : loc) (s : Store) :
  githubIssue commit = Some l ->
  Forall (fun c => c <> chr "$") (baseIssueUrl options) ->
  ~ In (chr " ") (baseIssueUrl options) ->
  (forall mr, COMMIT_FIX_match (title (s l)) = Some mr ->
              COMMIT_FIX_match (m_after mr) = None) ->
  COMMIT_FIX_match (title (snd (renderContribution options commit s) l))
    = None
  /\ fst (renderContribution options commit
            (snd (renderContribution options commit s)))
     = fst (renderContribution options commit s)
  /\ (forall l',
        snd (renderContribution options commit
               (snd (renderContribution options commit s))) l'
        = snd (renderContribution options commit s) l').
Proof.
  intros Hl Hb Hsp Hone.
  assert (Hst : COMMIT_FIX_match (rewriteTitle options (title (s l))) = None).
  { destruct (COMMIT_FIX_match (title (s l))) as [mr|] eqn:E.
    - apply (rewritten_settles options _ mr Hb Hsp E). now apply Hone.
    - now rewrite (rewriteTitle_settled options _ E). }
  assert (H1 : snd (renderContribution options commit s) l
               = with_title (s l) (rewriteTitle options (title (s l)))).
  { rewrite (renderContribution_store options commit l s l Hl).
    now rewrite Nat.eqb_refl. }
  split; [now rewrite H1|]. split.
  - rewrite !(renderContribution_out options commit l _ Hl), H1.
    cbn [title with_title]. rewrite (rewriteTitle_settled options _ Hst).
    reflexivity.
  - intros l'.
    rewrite (renderContribution_store options commit l _ l' Hl).
    destruct (Nat.eqb_spec l' l) as [->|_]; [|reflexivity].
    rewrite H1. cbn [title with_title].
    now rewrite (rewriteTitle_settled options _ Hst).
Qed.

Lemma renderContribution_again_witness :
  fst (renderContribution options_example commit_bug
         (snd (renderContribution options_example commit_bug
                 (store_of (issue_titled (lit "fixes #42"))))))
  = fst (renderContribution options_example commit_bug
           (store_of (issue_titled (lit "fixes #42")))).
Proof.
  apply (renderContribution_again options_example commit_bug 0
           (store_of (issue_titled (lit "fixes #42")))).
  - reflexivity.
  - repeat constructor; discriminate.
  - intros H. cbn in H.
    repeat (destruct H as [H|H]; [discriminate|]). destruct H.
  - intros mr H. vm_compute in H. injection H as <-. reflexivity.
Defined.

(** X13: when the base issue URL is written with every dollar sign doubled,
    the stored title is the title with its first reference replaced by
    [Closes [#n](u n)], where [n] is the digits of the reference and [u] the
    URL with single dollar signs. *)
Theorem renderContribution_escaped_base (options : Options)
  (commit : CommitInfo) (l : loc) (s : Store) (u : jstr) (mr : MatchResult) :
  githubIssue commit = Some l ->
  baseIssueUrl options = escape_dollars u ->
  COMMIT_FIX_match (title (s l)) = Some mr ->
  exists n,
    m_captures mr 3 = Some n /\ digits n
    /\ title (snd (renderContribution options commit s) l)
       = m_before mr ++ lit "Closes [#" ++ n ++ lit "](" ++ u ++ n ++ lit ")"
           ++ m_after mr.
Proof.
  intros Hl Hb Hm.
  destruct (rewriteTitle_escaped_base options u _ mr Hb Hm)
    as (n & Hc & Hd & Hr).
  exists n. split; [exact Hc|]. split; [exact Hd|].
  rewrite (renderContribution_store options commit l s l Hl).
  rewrite Nat.eqb_refl. exact Hr.
Qed.

Lemma renderContribution_escaped_base_witness :
  title (snd (renderContribution options_escaped commit_bug
                (store_of (issue_titled (lit "fixes #42")))) 0)
  = lit "Closes [#42](https://example.com/$x/42)".
Proof.
  destruct (COMMIT_FIX_match (lit "fixes #42")) as [mr|] eqn:E;
    [|vm_compute in E; discriminate].
  destruct (renderContribution_escaped_base options_escaped commit_bug 0
              (store_of (issue_titled (lit "fixes #42")))
              (lit "https://example.com/$x/") mr eq_refl eq_refl E)
    as (n & Hc & _ & Ht).
  vm_compute in E. injection E as <-.
  vm_compute in Hc. injection Hc as <-.
  rewrite Ht. reflexivity.
Defined.

Lemma renderPackageNames_inj (ps qs : list jstr) :
  (forall p, In p ps -> ~ In (chr "`") p) ->
  (forall q, In q qs -> ~ In (chr "`") q) ->
  renderPackageNames ps = renderPackageNames qs -> ps = qs.
Proof.
  intros Hps Hqs H.
  destruct ps as [|p ps], qs as [|q qs]; [reflexivity| | |].
  - symmetry in H. apply renderPackageNames_Other in H. discriminate.
  - apply renderPackageNames_Other in H. discriminate.
  - unfold renderPackageNames in H.
    apply quoted_join_inj in H; auto; discriminate.
Qed.

(** X14: two different package lists whose names hold no backquote get
    different labels from [renderPackageNames], so commits land in one group
    only when their package lists are equal. *)
Theorem distinct_packages_distinct_labels (ps qs : list jstr) :
  (forall p, In p ps -> ~ In (chr "`") p) ->
  (forall q, In q qs -> ~ In (chr "`") q) ->
  ps <> qs ->
  renderPackageNames ps <> renderPackageNames qs.
Proof.
  intros Hps Hqs Hne H. apply Hne. now apply renderPackageNames_inj.
Qed.

Lemma distinct_packages_distinct_labels_witness :
  renderPackageNames [lit "core"; lit "utils"]
  <> renderPackageNames [lit "utils"; lit "core"].
Proof.
  apply (distinct_packages_distinct_labels
           [lit "core"; lit "utils"] [lit "utils"; lit "core"]).
  - intros p Hp H. cbn in Hp.
    repeat (destruct Hp as [<-|Hp];
            [cbn in H; repeat (destruct H as [H|H]; [discriminate|]);
             destruct H|]).
    destruct Hp.
  - intros p Hp H. cbn in Hp.
    repeat (destruct Hp as [<-|Hp];
            [cbn in H; repeat (destruct H as [H|H]; [discriminate|]);
             destruct H|]).
    destruct Hp.
  - discriminate.
Defined.

(** X15: [hasPackages] is false exactly when every commit has the package
    label Other, the case in which [renderRelease] lists the contributions
    without package groups. *)
Theorem hasPackages_false_iff (commits : list CommitInfo) :
  hasPackages commits = false
  <-> (forall c, In c commits -> package_label c = lit "Other").
Proof.
  unfold hasPackages. induction commits as [|c cs IH].
  - split; [intros _ c []|reflexivity].
  - cbn [existsb]. rewrite orb_false_iff, IH. clear IH.
    assert (Hc : match packages c with
                 | Some ps => Nat.ltb 0 (List.length ps)
                 | None => false
                 end = false <-> package_label c = lit "Other").
    { unfold package_label. rewrite renderPackageNames_Other.
      unfold changedPackages.
      destruct (packages c) as [[|p ps]|]; cbn; split;
        try reflexivity; discriminate. }
    rewrite Hc. split.
    + intros [H1 H2] x [<-|Hx]; auto.
    + intros H. split; [apply H; now left|].
      intros x Hx. apply H. now right.
Qed.
